(** * Live audio bridge of the Gemini chat client

    A shallow embedding of the "Live API" part of [services/geminiService.ts]
    (the module-level variables [liveSession], [inputAudioContext],
    [outputAudioContext], [mediaStream], [scriptProcessor], [nextStartTime],
    [sources], and the functions [connectLive] and [closeLiveSession] with the
    handlers [connectLive] registers), and of the voice toggle of [App.tsx];
    further on, of the request functions of the same service ([getAi],
    [generateTextStream], [analyzeContent], [editImage],
    [pollVideoOperation]) and of the message list of [App.tsx].

    JavaScript numbers are modelled by rationals ([Q]) that stand for the
    binary64 values the program holds: a [Float32Array] sample is a dyadic
    rational and its product with [32768 = 2^15] is exact in binary64, so the
    capture path needs no rounding; the playback cursor uses [Math.max] and
    comparisons, which are exact, and [+=], whose sum is rounded to binary64
    ([Binary64.fadd]).  Non-finite numbers ([NaN], infinities) are outside the
    model. *)

From Stdlib Require Import ZArith QArith Qabs Qround Qminmax Lia Lqa.
From stdpp Require Import base option list strings.

Local Open Scope Z_scope.

(** ** Frame encoder: [scriptProcessor.onaudioprocess], numeric part *)

Module Encoder.

(** Truncation toward zero, the first step of the typed-array conversion
    [ToInt16] that [int16[i] = v] applies to the number [v]. *)
Definition js_trunc (v : Q) : Z := Z.quot (Qnum v) (Z.pos (Qden v)).

(** [ToInt16]: truncate, reduce modulo [2^16], read as two's complement. *)
Definition ToInt16 (v : Q) : Z :=
  let int16bit := js_trunc v mod 65536 in
  if 32768 <=? int16bit then int16bit - 65536 else int16bit.

(** [inputData[i] * 32768] stored into an [Int16Array] slot. *)
Definition int16_of_sample (x : Q) : Z := ToInt16 (x * 32768)%Q.

(** [for (let i = 0; i < l; i++) int16[i] = inputData[i] * 32768;]
    run on [int16 = new Int16Array(l)] (all zeros); [n] counts the remaining
    iterations.  A read past the end yields [undefined], whose product is
    [NaN] and is stored as [0]; it never happens since [i < l]. *)
Fixpoint fill_loop (inputData : list Q) (n : nat) (i : nat) (int16 : list Z) : list Z :=
  match n with
  | O => int16
  | S n' =>
      let v := match inputData !! i with
               | Some x => int16_of_sample x
               | None => 0
               end in
      fill_loop inputData n' (S i) (<[i := v]> int16)
  end.

Definition int16_samples (inputData : list Q) : list Z :=
  let l := length inputData in
  fill_loop inputData l 0%nat (replicate l 0).

(** [new Uint8Array(int16.buffer)]: the two bytes of one element, least
    significant first (typed arrays use the platform byte order, which is
    little-endian on every platform browsers run on). *)
Definition int16_bytes (v : Z) : list Z :=
  let u := v mod 65536 in [Z.land u 255; Z.shiftr u 8].

Definition Uint8Array_of_int16 (int16 : list Z) : list Z :=
  flat_map int16_bytes int16.

(** The PCM bytes handed to [encode] (base64, from [utils], not under src/)
    for one capture chunk. *)
Definition pcm_frame (inputData : list Q) : list Z :=
  Uint8Array_of_int16 (int16_samples inputData).

(** The conversion in the words of the specification:
    [round(sample * 32767)] clamped to the signed 16-bit range, with
    [round] the nearest integer, halves going up as [Math.round] does. *)
Definition spec_round (v : Q) : Z := Qfloor (v + (1 # 2))%Q.

Definition spec_clamp16 (z : Z) : Z := Z.max (-32768) (Z.min 32767 z).

Definition spec_convert (x : Q) : Z := spec_clamp16 (spec_round (x * 32767)%Q).

(** Modelled from the spec: the inverse PCM conversion used to state the
    round trip of the encoder (the repository's own decoder,
    [utils.decodeAudioData], is not under src/).  Two bytes are read least
    significant first as a signed 16-bit value. *)
Definition int16_of_bytes (lo hi : Z) : Z :=
  let u := lo + 256 * hi in
  if 32768 <=? u then u - 65536 else u.

(** Modelled from the spec: a PCM buffer read back as 16-bit samples, two
    bytes each (the reading side of [utils], not under src/). *)
Fixpoint int16_of_pcm (bytes : list Z) : list Z :=
  match bytes with
  | lo :: hi :: rest => int16_of_bytes lo hi :: int16_of_pcm rest
  | _ => []
  end.

(** Modelled from the spec: one quantization step of 16-bit PCM over the
    range [-1.0, 1.0], the unit of the round-trip bound. *)
Definition quantization_step : Q := 1 # 32768.

(** Modelled from the spec: a stored value read back as a floating-point
    sample, in steps of [step] ([utils.decodeAudioData] is not under src/). *)
Definition decode_sample_with (step : Q) (v : Z) : Q := (inject_Z v * step)%Q.

Definition decode_sample (v : Z) : Q := decode_sample_with quantization_step v.

(** Modelled from the spec: decoding an encoded frame back to samples. *)
Definition decode_frame (bytes : list Z) : list Q :=
  map decode_sample (int16_of_pcm bytes).

Definition in_unit_range (x : Q) : Prop := (-1 <= x /\ x <= 1)%Q.

Definition below_full_scale (x : Q) : Prop := (-1 <= x /\ x < 1)%Q.

Definition int16_range (z : Z) : Prop := -32768 <= z <= 32767.

End Encoder.

(** ** Number arithmetic: the [+] of JavaScript on finite numbers *)

Module Binary64.

(** Rounding of a rational to the nearest integer, ties to the even one. *)
Definition round_half_even (x : Q) : Z :=
  let f := Qfloor x in
  match Qcompare (x - inject_Z f) (1 # 2) with
  | Lt => f
  | Gt => f + 1
  | Eq => if Z.even f then f else f + 1
  end.

(** The number of low bits an integer of more than 53 bits loses. *)
Definition dropped_bits (n : Z) : Z := Z.max 0 (Z.log2 n - 52).

(** A non-negative rational rounded to an integer of at most 53 significant
    bits. *)
Definition round53 (x : Q) : Z :=
  let k := dropped_bits (Qfloor x) in
  round_half_even (x / inject_Z (2 ^ k)) * 2 ^ k.

(** Every finite binary64 number is an integer multiple of [2^-1074], the
    smallest subnormal. *)
Definition scale : Z := 2 ^ 1074.

(** The binary64 number nearest to [q], ties to even: in units of
    [2^-1074] a binary64 number is an integer of at most 53 significant
    bits.  The exponent is not bounded above: the overflow to [Infinity], at
    [2^1024], is outside the model. *)
Definition round (q : Q) : Q :=
  match Qcompare q 0 with
  | Lt => Qred (- (inject_Z (round53 (- q * inject_Z scale)) / inject_Z scale))
  | _ => Qred (inject_Z (round53 (q * inject_Z scale)) / inject_Z scale)
  end.

(** [x + y] on numbers. *)
Definition fadd (x y : Q) : Q := round (x + y).


End Binary64.

(** ** Module state and effects of the live session *)

Module Live.

(** Handles of the platform objects the module refers to.  Objects are
    created by the platform ([new AudioContext], [getUserMedia],
    [createScriptProcessor], [createBufferSource], the resolved session
    promise); the handlers receive them as arguments. *)
Definition Session := nat.
Definition AudioContext := nat.
Definition MediaStreamTrack := nat.
Definition ScriptProcessorNode := nat.
Definition AudioBufferSourceNode := nat.

(** [mediaStream.getTracks()]. *)
Record MediaStream := { getTracks : list MediaStreamTrack }.

(** The part of [LiveServerMessage] the message handler reads; every level
    is optional in the SDK's types. *)
Record InlineData := { data : option string }.
Record Part := { inlineData : option InlineData }.
Record Content := { parts : option (list Part) }.
Record ServerContent := { modelTurn : option Content }.
Record LiveServerMessage := { serverContent : option ServerContent }.

(** The module-level variables. *)
Record State := {
  liveSession : option Session;
  inputAudioContext : option AudioContext;
  outputAudioContext : option AudioContext;
  mediaStream : option MediaStream;
  scriptProcessor : option ScriptProcessorNode;
  nextStartTime : Q;
  sources : list AudioBufferSourceNode
}.

(** [sources] is a JavaScript [Set], held as the list of its elements in the
    order they were added, which is the order [forEach] visits them in.
    [add] of an element the set already has changes nothing; [delete] removes
    the element. *)
Definition Set_add (n : AudioBufferSourceNode) (l : list AudioBufferSourceNode) :
    list AudioBufferSourceNode :=
  if decide (n ∈ l) then l else l ++ [n].

Definition Set_delete (n : AudioBufferSourceNode) (l : list AudioBufferSourceNode) :
    list AudioBufferSourceNode :=
  filter (fun x => x <> n) l.

(** The module as loaded: [liveSession = null], [nextStartTime = 0],
    [sources = new Set()], the other variables not yet assigned. *)
Definition initial_state : State :=
  {| liveSession := None; inputAudioContext := None; outputAudioContext := None;
     mediaStream := None; scriptProcessor := None;
     nextStartTime := 0%Q; sources := [] |}.

Definition set_liveSession (v : option Session) (s : State) : State :=
  {| liveSession := v; inputAudioContext := inputAudioContext s;
     outputAudioContext := outputAudioContext s; mediaStream := mediaStream s;
     scriptProcessor := scriptProcessor s; nextStartTime := nextStartTime s;
     sources := sources s |}.

Definition set_audioContexts (i o : AudioContext) (s : State) : State :=
  {| liveSession := liveSession s; inputAudioContext := Some i;
     outputAudioContext := Some o; mediaStream := mediaStream s;
     scriptProcessor := scriptProcessor s; nextStartTime := nextStartTime s;
     sources := sources s |}.

Definition set_mediaStream (v : MediaStream) (s : State) : State :=
  {| liveSession := liveSession s; inputAudioContext := inputAudioContext s;
     outputAudioContext := outputAudioContext s; mediaStream := Some v;
     scriptProcessor := scriptProcessor s; nextStartTime := nextStartTime s;
     sources := sources s |}.

Definition set_scriptProcessor (v : ScriptProcessorNode) (s : State) : State :=
  {| liveSession := liveSession s; inputAudioContext := inputAudioContext s;
     outputAudioContext := outputAudioContext s; mediaStream := mediaStream s;
     scriptProcessor := Some v; nextStartTime := nextStartTime s;
     sources := sources s |}.

Definition set_nextStartTime (v : Q) (s : State) : State :=
  {| liveSession := liveSession s; inputAudioContext := inputAudioContext s;
     outputAudioContext := outputAudioContext s; mediaStream := mediaStream s;
     scriptProcessor := scriptProcessor s; nextStartTime := v;
     sources := sources s |}.

Definition set_sources (v : list AudioBufferSourceNode) (s : State) : State :=
  {| liveSession := liveSession s; inputAudioContext := inputAudioContext s;
     outputAudioContext := outputAudioContext s; mediaStream := mediaStream s;
     scriptProcessor := scriptProcessor s; nextStartTime := nextStartTime s;
     sources := v |}.

(** Calls that leave the module: platform and SDK operations, and the four
    host callbacks passed to [connectLive]. *)
Inductive Effect :=
  | getAi
  | live_connect
  | getUserMedia
  | session_close (h : Session)
  | sendRealtimeInput (h : Session) (pcm : list Z)
  | track_stop (t : MediaStreamTrack)
  | processor_disconnect (p : ScriptProcessorNode)
  | context_close (c : AudioContext)
  | decodeAudioData (base64Audio : string)
  | source_start (n : AudioBufferSourceNode) (duration : Q) (when : Q)
  | source_stop (n : AudioBufferSourceNode)
  | cb_onOpen
  | cb_onMessage (message : LiveServerMessage)
  | cb_onClose
  | cb_onError (e : string).

Inductive Exn :=
  | TypeError
  | Thrown (by_call : Effect).

Inductive completion (A : Type) :=
  | Normal (a : A)
  | Throw (x : Exn).
Arguments Normal {A} a.
Arguments Throw {A} x.

(** One run of a piece of code: how it completed, the module variables it
    left, and the calls it made, in order. *)
Record Run (A : Type) := {
  result : completion A;
  final : State;
  trace : list Effect
}.
Arguments result {A} r.
Arguments final {A} r.
Arguments trace {A} r.

Definition M (A : Type) : Type := State -> Run A.

(** A run that comes after the calls [es]. *)
Definition after {A} (es : list Effect) (r : Run A) : Run A :=
  {| result := result r; final := final r; trace := es ++ trace r |}.

Definition ret {A} (a : A) : M A :=
  fun s => {| result := Normal a; final := s; trace := [] |}.

Definition bind {A B} (m : M A) (f : A -> M B) : M B :=
  fun s =>
    let r := m s in
    match result r with
    | Normal a =>
        let r' := f a (final r) in
        {| result := result r'; final := final r'; trace := trace r ++ trace r' |}
    | Throw x => {| result := Throw x; final := final r; trace := trace r |}
    end.

#[global] Instance M_ret : MRet M := @ret.
#[global] Instance M_bind : MBind M := fun A B f m => bind m f.

Definition get : M State :=
  fun s => {| result := Normal s; final := s; trace := [] |}.

Definition modify (f : State -> State) : M unit :=
  fun s => {| result := Normal tt; final := f s; trace := [] |}.

Definition throw {A} (x : Exn) : M A :=
  fun s => {| result := Throw x; final := s; trace := [] |}.

Definition lift {A} (c : completion A) : M A :=
  match c with
  | Normal a => ret a
  | Throw x => throw x
  end.

(** [o?.f()]: nothing happens on [null] or [undefined]. *)
Definition opt_call {A} (o : option A) (f : A -> M unit) : M unit :=
  match o with
  | Some a => f a
  | None => ret tt
  end.

(** [xs.forEach(f)]: in order, abandoned at the first exception. *)
Fixpoint forEach {A} (xs : list A) (f : A -> M unit) : M unit :=
  match xs with
  | [] => ret tt
  | x :: xs' => bind (f x) (fun _ => forEach xs' f)
  end.

(** [message.serverContent?.modelTurn?.parts[0]?.inlineData?.data]:
    the chain stops with [undefined] at a missing [serverContent],
    [modelTurn], first part, or [inlineData]; [parts[0]] is not guarded, so a
    turn without [parts] is a [TypeError]. *)
Definition base64Audio_of (message : LiveServerMessage) : completion (option string) :=
  match serverContent message with
  | None => Normal None
  | Some sc =>
      match modelTurn sc with
      | None => Normal None
      | Some turn =>
          match parts turn with
          | None => Throw TypeError
          | Some ps =>
              match ps !! 0%nat with
              | None => Normal None
              | Some p =>
                  match inlineData p with
                  | None => Normal None
                  | Some blob => Normal (data blob)
                  end
              end
          end
      end
  end.

(** [if (base64Audio)]: a string is truthy when it is not empty. *)
Definition truthy (v : option string) : option string :=
  match v with
  | Some EmptyString => None
  | Some b => Some b
  | None => None
  end.

(** The audio payload of a message, when it has one. *)
Definition audio_payload (message : LiveServerMessage) : option string :=
  match base64Audio_of message with
  | Normal v => truthy v
  | Throw _ => None
  end.

(** What the platform answers while one audio message is handled: the value
    read from [outputAudioContext.currentTime], the [duration] of the decoded
    [AudioBuffer], and the node returned by [createBufferSource]. *)
Record Playback := {
  currentTime : Q;
  duration : Q;
  sourceNode : AudioBufferSourceNode
}.

Section Handlers.

(** Which calls raise an exception; a call is recorded, then raises. *)
Variable throws : Effect -> bool.

Definition call (e : Effect) : M unit :=
  fun s => {| result := if throws e then Throw (Thrown e) else Normal tt;
              final := s; trace := [e] |}.

(** A row of calls made one after the other: how the row completes and
    which calls are reached. *)
Fixpoint first_throw (es : list Effect) : completion unit :=
  match es with
  | [] => Normal tt
  | e :: es' => if throws e then Throw (Thrown e) else first_throw es'
  end.

Fixpoint attempted (es : list Effect) : list Effect :=
  match es with
  | [] => []
  | e :: es' => e :: (if throws e then [] else attempted es')
  end.

Definition perform (es : list Effect) : M unit :=
  fun s => {| result := first_throw es; final := s; trace := attempted es |}.

(** [scriptProcessor.onaudioprocess]: the chunk is converted and sent through
    the module variable [liveSession], when it is set.  [pcm] stands for
    [pcmBlob], whose [data] is the base64 text of these bytes. *)
Definition onaudioprocess (inputData : list Q) : M unit :=
  let pcm := Encoder.pcm_frame inputData in
  s ← get;
  opt_call (liveSession s) (fun h => call (sendRealtimeInput h pcm)).

(** The continuation [sessionPromise.then(async (session) => ...)] that
    [onopen] starts.  [outputAudioContext] and [inputAudioContext] are
    assigned by [connectLive] before any handler exists and are never unset,
    so reading them cannot fail. *)
Definition onopen (session : Session) (stream : MediaStream)
    (processor : ScriptProcessorNode) : M unit :=
  modify (set_liveSession (Some session));;
  call getUserMedia;;
  modify (set_mediaStream stream);;
  modify (set_scriptProcessor processor);;
  call cb_onOpen.

(** The part of [onmessage] that runs for an audio payload, up to the
    [await]: the cursor catches up with the playback clock and the payload is
    decoded.  [currentTime p] is the value [outputAudioContext.currentTime]
    has when it is read here; [decodeAudioData] stands for
    [decodeAudioData(decode(base64Audio), ...)] of [utils]. *)
Definition schedule_before_await (base64Audio : string) (p : Playback) : M unit :=
  modify (fun s => set_nextStartTime (Qmax (nextStartTime s) (currentTime p)) s);;
  call (decodeAudioData base64Audio).

(** ... and after it: the node is started at the value the cursor has now,
    the cursor advances by the buffer's duration (a sum of two numbers,
    rounded), the node joins [sources]. *)
Definition schedule_after_await (p : Playback) : M unit :=
  s ← get;
  call (source_start (sourceNode p) (duration p) (nextStartTime s));;
  modify (fun s => set_nextStartTime (Binary64.fadd (nextStartTime s) (duration p)) s);;
  modify (fun s => set_sources (Set_add (sourceNode p) (sources s)) s).

Definition onmessage (message : LiveServerMessage) (p : Playback) : M unit :=
  call (cb_onMessage message);;
  base64Audio ← lift (base64Audio_of message);
  match truthy base64Audio with
  | Some b => schedule_before_await b p;; schedule_after_await p
  | None => ret tt
  end.

(** The same handler as the event loop sees it when another event is
    served during the [await]: the part up to the [await] ... *)
Definition onmessage_begin (message : LiveServerMessage) (p : Playback) : M unit :=
  call (cb_onMessage message);;
  base64Audio ← lift (base64Audio_of message);
  match truthy base64Audio with
  | Some b => schedule_before_await b p
  | None => ret tt
  end.

(** ... and its resumption once the buffer is decoded. *)
Definition onmessage_resume (p : Playback) : M unit := schedule_after_await p.

(** The ['ended'] listener of a scheduled node. *)
Definition onended (n : AudioBufferSourceNode) : M unit :=
  modify (fun s => set_sources (Set_delete n (sources s)) s).

(** [onclose: callbacks.onClose] and [onerror: callbacks.onError]. *)
Definition onclose : M unit := call cb_onClose.

Definition onerror (e : string) : M unit := call (cb_onError e).

(** [connectLive]: [input] and [output] are the two contexts [new
    AudioContext] returns.  The function does not wait for the session. *)
Definition connectLive (input output : AudioContext) : M unit :=
  call getAi;;
  modify (set_audioContexts input output);;
  call live_connect.

(** [closeLiveSession]: a straight row of statements, with no handler for
    exceptions. *)
Definition closeLiveSession : M unit :=
  s ← get;
  opt_call (liveSession s) (fun h => call (session_close h));;
  modify (set_liveSession None);;
  opt_call (mediaStream s) (fun m => forEach (getTracks m) (fun t => call (track_stop t)));;
  opt_call (scriptProcessor s) (fun p => call (processor_disconnect p));;
  opt_call (inputAudioContext s) (fun c => call (context_close c));;
  opt_call (outputAudioContext s) (fun c => call (context_close c));;
  forEach (sources s) (fun n => call (source_stop n));;
  modify (set_sources []);;
  modify (set_nextStartTime 0%Q).

(** Events the module reacts to, each with what the platform supplies. *)
Inductive Event :=
  | ev_connectLive (input output : AudioContext)
  | ev_open (session : Session) (stream : MediaStream) (processor : ScriptProcessorNode)
  | ev_audioprocess (inputData : list Q)
  | ev_message (message : LiveServerMessage) (p : Playback)
  | ev_message_begin (message : LiveServerMessage) (p : Playback)
  | ev_message_resume (p : Playback)
  | ev_ended (n : AudioBufferSourceNode)
  | ev_close
  | ev_error (e : string)
  | ev_closeLiveSession.

Definition handle (ev : Event) : M unit :=
  match ev with
  | ev_connectLive i o => connectLive i o
  | ev_open h m p => onopen h m p
  | ev_audioprocess d => onaudioprocess d
  | ev_message m p => onmessage m p
  | ev_message_begin m p => onmessage_begin m p
  | ev_message_resume p => onmessage_resume p
  | ev_ended n => onended n
  | ev_close => onclose
  | ev_error e => onerror e
  | ev_closeLiveSession => closeLiveSession
  end.

(** The event loop: handlers run one after the other; an exception ends the
    handler that raised it, not the loop. *)
Fixpoint run_events (evs : list Event) (s : State) : State * list Effect :=
  match evs with
  | [] => (s, [])
  | ev :: evs' =>
      let r := handle ev s in
      let '(s', t) := run_events evs' (final r) in
      (s', trace r ++ t)
  end.

End Handlers.

(** The platform with no failing call. *)
Definition no_throw : Effect -> bool := fun _ => false.

(** Readings of a trace. *)
Definition start_of (e : Effect) : option (Q * Q) :=
  match e with
  | source_start _ d t => Some (t, d)
  | _ => None
  end.

(** The segments started, in order: start time and duration. *)
Definition schedule (t : list Effect) : list (Q * Q) := omap start_of t.

Definition start_times (t : list Effect) : list Q := fst <$> schedule t.

Definition is_send (e : Effect) : bool :=
  match e with
  | sendRealtimeInput _ _ => true
  | _ => false
  end.

Definition is_host_callback (e : Effect) : bool :=
  match e with
  | cb_onOpen | cb_onMessage _ | cb_onClose | cb_onError _ => true
  | _ => false
  end.

(** The releases of [closeLiveSession] on the variables of [s], in order:
    the transport first, then capture, processor, both contexts and the
    scheduled nodes. *)
Definition session_release (s : State) : list Effect :=
  match liveSession s with Some h => [session_close h] | None => [] end.

Definition device_releases (s : State) : list Effect :=
  match mediaStream s with Some m => track_stop <$> getTracks m | None => [] end ++
  match scriptProcessor s with Some p => [processor_disconnect p] | None => [] end ++
  match inputAudioContext s with Some c => [context_close c] | None => [] end ++
  match outputAudioContext s with Some c => [context_close c] | None => [] end ++
  (source_stop <$> sources s).

Definition releases (s : State) : list Effect :=
  session_release s ++ device_releases s.

(** The variables a completed teardown leaves. *)
Definition torn_down (s : State) : State :=
  set_nextStartTime 0%Q (set_sources [] (set_liveSession None s)).

(** No session, nothing scheduled, cursor at zero: the module before a
    session was opened or after one was closed. *)
Definition idle (s : State) : Prop :=
  liveSession s = None /\ sources s = [] /\ nextStartTime s = 0%Q.


Definition is_open_event (ev : Event) : bool :=
  match ev with
  | ev_open _ _ _ => true
  | _ => false
  end.


(** The duration an event hands to the scheduler, if any. *)
Definition event_duration (ev : Event) : Q :=
  match ev with
  | ev_message _ p | ev_message_begin _ p | ev_message_resume p => duration p
  | _ => 0%Q
  end.






(** Concrete values used to run the handlers: a module with an open
    session, a capture stream of one track, one scheduled node and the
    cursor at [2.5]; a message with an audio payload; a platform whose
    [session.close()] raises. *)
Definition open_state_example : State :=
  {| liveSession := Some 3%nat; inputAudioContext := Some 1%nat;
     outputAudioContext := Some 2%nat;
     mediaStream := Some {| getTracks := [4%nat] |};
     scriptProcessor := Some 5%nat;
     nextStartTime := (5 # 2)%Q; sources := [7%nat] |}.

Definition audio_message (base64Audio : string) : LiveServerMessage :=
  {| serverContent := Some {| modelTurn := Some {| parts :=
       Some [{| inlineData := Some {| data := Some base64Audio |} |}] |} |} |}.

Definition session_close_throws : Effect -> bool :=
  fun e => match e with session_close _ => true | _ => false end.

(** A platform whose [AudioContext.close()] raises. *)
Definition context_close_throws : Effect -> bool :=
  fun e => match e with context_close _ => true | _ => false end.

(** The numbers [0.1] and [0.7], that is, the binary64 numbers nearest to
    one tenth and to seven tenths. *)
Definition tenth : Q := (3602879701896397 # 36028797018963968)%Q.

Definition seven_tenths : Q := (3152519739159347 # 4503599627370496)%Q.

End Live.

(** ** The voice toggle of the host, [App.tsx] *)

Module Host.
Import Live.

(** The two pieces of React state the voice button depends on. *)
Record HostState := {
  isVoiceSessionActive : bool;
  isLoading : bool
}.

(** [try { ... } catch (error) { ... }]. *)
Definition try_catch {A} (m : M A) (handler : Exn -> M A) : M A :=
  fun s =>
    let r := m s in
    match result r with
    | Normal _ => r
    | Throw x =>
        let r' := handler x (final r) in
        {| result := result r'; final := final r'; trace := trace r ++ trace r' |}
    end.

(** [handleVoiceToggle]: while a session is active the button closes it;
    otherwise it marks the host as loading and connects.  The result is the
    host state after the setters have taken effect. *)
Definition handleVoiceToggle (throws : Effect -> bool) (input output : AudioContext)
    (h : HostState) : M HostState :=
  if isVoiceSessionActive h then
    closeLiveSession throws;;
    mret {| isVoiceSessionActive := false; isLoading := isLoading h |}
  else
    try_catch
      (connectLive throws input output;;
       mret {| isVoiceSessionActive := false; isLoading := true |})
      (fun _ => mret {| isVoiceSessionActive := false; isLoading := false |}).

End Host.

(** ** Readings of a run used for the invariants of the session *)

Module LiveAux.
Import Live.

(** The nodes whose [start] call returned, in order. *)
Definition started_nodes (throws : Effect -> bool) (t : list Effect) :
    list AudioBufferSourceNode :=
  omap (fun e => match e with
                 | source_start n _ _ => if throws e then None else Some n
                 | _ => None
                 end) t.

(** Events that only the host triggers, by calling the exported functions. *)
Definition is_host_call (ev : Event) : bool :=
  match ev with
  | ev_connectLive _ _ | ev_closeLiveSession => true
  | _ => false
  end.

(** The platform calls of a teardown other than the transport's [close]. *)
Definition is_device_release (e : Effect) : bool :=
  match e with
  | track_stop _ | processor_disconnect _ | context_close _ | source_stop _ => true
  | _ => false
  end.

End LiveAux.

(** ** The request functions of [services/geminiService.ts] *)

Module Service.

(** A call that returns or raises [new Error(message)]. *)
Inductive outcome (A : Type) :=
  | Returned (a : A)
  | Raised (message : string).
Arguments Returned {A} a.
Arguments Raised {A} message.

(** The client, as far as the module is concerned: the key it was made
    with. *)
Record GoogleGenAI := { apiKey : string }.

(** [getAi]: [ai] is the module variable, [API_KEY] is
    [process.env.API_KEY]; the result is the outcome and the variable
    afterwards.  [!apiKey] holds for [undefined] and for the empty string. *)
Definition getAi (API_KEY : option string) (ai : option GoogleGenAI) :
    outcome GoogleGenAI * option GoogleGenAI :=
  match ai with
  | Some client => (Returned client, ai)
  | None =>
      match API_KEY with
      | None | Some EmptyString =>
          (Raised "API_KEY environment variable not set.", ai)
      | Some key =>
          let client := {| apiKey := key |} in
          (Returned client, Some client)
      end
  end.

Inductive ChatMode := flash_lite | flash | pro | search | maps.

Definition getModelForChatMode (mode : ChatMode) : string :=
  match mode with
  | flash_lite => "gemini-flash-lite-latest"
  | pro => "gemini-2.5-pro"
  | search | maps | flash => "gemini-2.5-flash"
  end.

Inductive Tool := googleSearch | googleMaps.

Record LatLng := { latitude : Q; longitude : Q }.

(** [config], with the three properties [generateTextStream] may set. *)
Record GenerateConfig := {
  thinkingBudget : option Z;
  tools : option (list Tool);
  retrievalConfig : option LatLng
}.

Record TextRequest := {
  model : string;
  contents : list string;
  config : GenerateConfig
}.

(** The three [if]s of [generateTextStream], run on [config = {}]. *)
Definition text_config (mode : ChatMode) : GenerateConfig :=
  let config := {| thinkingBudget := None; tools := None; retrievalConfig := None |} in
  let config :=
    match mode with
    | pro => {| thinkingBudget := Some 32768; tools := tools config;
                retrievalConfig := retrievalConfig config |}
    | _ => config
    end in
  let config :=
    match mode with
    | search => {| thinkingBudget := thinkingBudget config; tools := Some [googleSearch];
                   retrievalConfig := retrievalConfig config |}
    | _ => config
    end in
  match mode with
  | maps => {| thinkingBudget := thinkingBudget config; tools := Some [googleMaps];
               retrievalConfig :=
                 Some {| latitude := (3778193 # 100000)%Q;
                         longitude := (-12240476 # 100000)%Q |} |}
  | _ => config
  end.

(** [generateTextStream] up to the call of [generateContentStream]: the
    client is obtained first, then the request is built. *)
Definition generateTextStream (API_KEY : option string) (ai : option GoogleGenAI)
    (prompt : string) (mode : ChatMode) : outcome TextRequest * option GoogleGenAI :=
  match getAi API_KEY ai with
  | (Raised m, ai') => (Raised m, ai')
  | (Returned _, ai') =>
      (Returned {| model := getModelForChatMode mode; contents := [prompt];
                   config := text_config mode |}, ai')
  end.

(** A [File] as the service reads it: its MIME type and how the promise of
    [fileToBase64] (from [utils], not under src/) settles for it, with the
    data or with a rejection. *)
Record File := { type : string; base64Data : outcome string }.

Inductive Part :=
  | inlinePart (mimeType data : string)
  | textPart (text : string).

(** [fileToGenerativePart]: rejected when the read is. *)
Definition fileToGenerativePart (file : File) : outcome Part :=
  match base64Data file with
  | Returned data => Returned (inlinePart (type file) data)
  | Raised reason => Raised reason
  end.

(** [Promise.all]: the values, in the order of the promises, when all are
    fulfilled.  Otherwise it is rejected with the reason of the promise that
    was rejected first in time, which the order of the array does not tell:
    the result lists the reasons of the rejected promises. *)
Fixpoint Promise_all {A} (ps : list (outcome A)) : list A + list string :=
  match ps with
  | [] => inl []
  | Returned a :: ps' =>
      match Promise_all ps' with
      | inl values => inl (a :: values)
      | inr reasons => inr reasons
      end
  | Raised reason :: ps' =>
      match Promise_all ps' with
      | inl _ => inr [reason]
      | inr reasons => inr (reason :: reasons)
      end
  end.

Record ContentRequest := {
  content_model : string;
  content_parts : list Part
}.

(** How a call of [analyzeContent] stands when it reaches [generateContent],
    or how it ended before: [getAi] raised, or the reading of the files was
    rejected, with one of [reasons]. *)
Inductive Analysis :=
  | KeyMissing (message : string)
  | ReadFailed (reasons : list string)
  | Asked (request : ContentRequest).

(** [analyzeContent] up to the call of [generateContent]: the client is
    obtained first, then the files are read, then the request is built. *)
Definition analyzeContent (API_KEY : option string) (ai : option GoogleGenAI)
    (prompt : string) (files : list File) : Analysis * option GoogleGenAI :=
  match getAi API_KEY ai with
  | (Raised m, ai') => (KeyMissing m, ai')
  | (Returned _, ai') =>
      match Promise_all (fileToGenerativePart <$> files) with
      | inr reasons => (ReadFailed reasons, ai')
      | inl fileParts =>
          let model :=
            if existsb (fun f => String.prefix "video/" (type f)) files
            then "gemini-2.5-pro" else "gemini-2.5-flash" in
          (Asked {| content_model := model;
                    content_parts := fileParts ++ [textPart prompt] |}, ai')
      end
  end.

(** The part of a [GenerateContentResponse] that [editImage] reads. *)
Record Candidate := { content : option Live.Content }.
Record GenerateContentResponse := { candidates : option (list Candidate) }.

(** [response.candidates?.[0]?.content?.parts?.[0]]. *)
Definition first_part (response : GenerateContentResponse) : option Live.Part :=
  cs ← candidates response;
  c ← cs !! 0%nat;
  ct ← content c;
  ps ← Live.parts ct;
  ps !! 0%nat.

(** What [editImage] does with the response: [base64Image] is
    [part.inlineData.data], which may be [undefined]. *)
Definition editImage_result (response : GenerateContentResponse) :
    outcome (option string) :=
  match first_part response with
  | Some part =>
      match Live.inlineData part with
      | Some blob => Returned (Live.data blob)
      | None => Raised "No image generated"
      end
  | None => Raised "No image generated"
  end.

(** The part of a video operation that [pollVideoOperation] reads:
    [done], [metadata?.state] and
    [response?.generatedVideos?.[0]?.video?.uri]. *)
Record Operation := {
  done : bool;
  state : option string;
  uri : option string
}.

(** [x || fallback] on an optional string. *)
Definition or_else (x : option string) (fallback : string) : string :=
  match x with
  | None | Some EmptyString => fallback
  | Some v => v
  end.

Definition in_progress (operation : Operation) : string :=
  "Video generation in progress... State: " +:+ or_else (state operation) "PROCESSING".

Definition complete : string := "Video processing complete! Fetching video...".

(** How a call of [pollVideoOperation] stands once the answers supplied to
    it are used up: ended at once because the client could not be made,
    still waiting in the loop, ended by a rejected [getVideosOperation],
    ended by the final [throw], or at the [fetch] of the download link.
    [progress] lists the texts given to [onProgress]. *)
Inductive PollResult :=
  | NoClient (message : string)
  | Polling (progress : list string)
  | Rejected (progress : list string) (reason : string)
  | Failed (progress : list string) (message : string)
  | Fetching (progress : list string) (url : string).

(** The code after the loop.  An unset key, if the client was made without
    one, is interpolated as ["undefined"]. *)
Definition finish (API_KEY : option string) (operation : Operation)
    (progress : list string) : PollResult :=
  let progress := progress ++ [complete] in
  match uri operation with
  | None | Some EmptyString => Failed progress "Video generation failed or URI not found."
  | Some downloadLink =>
      Fetching progress (downloadLink +:+ "&key=" +:+ default "undefined" API_KEY)
  end.

(** The loop: [responses] are the answers of [getVideosOperation], in
    order; each iteration reports progress, waits ten seconds and asks
    again. *)
Fixpoint poll (API_KEY : option string) (currentOperation : Operation)
    (responses : list (outcome Operation)) (progress : list string) : PollResult :=
  if done currentOperation then finish API_KEY currentOperation progress
  else
    let progress := progress ++ [in_progress currentOperation] in
    match responses with
    | [] => Polling progress
    | Raised reason :: _ => Rejected progress reason
    | Returned next :: rest => poll API_KEY next rest progress
    end.

(** [pollVideoOperation] begins with [new GoogleGenAI({ apiKey:
    process.env.API_KEY })], on a key it has not looked at.  The constructor
    is the SDK's: what it does with a key, returning a client or raising, is
    the parameter [new_GoogleGenAI].  When it raises, the call ends there. *)
Definition pollVideoOperation (new_GoogleGenAI : option string -> outcome GoogleGenAI)
    (API_KEY : option string) (operation : Operation)
    (responses : list (outcome Operation)) : PollResult :=
  match new_GoogleGenAI API_KEY with
  | Raised message => NoClient message
  | Returned _ => poll API_KEY operation responses []
  end.

Definition progress_of (r : PollResult) : list string :=
  match r with
  | NoClient _ => []
  | Polling p | Rejected p _ | Failed p _ | Fetching p _ => p
  end.

(** A constructor that makes a client of any key it is given and raises
    when it is given none. *)
Definition keyed_GoogleGenAI (key : option string) : outcome GoogleGenAI :=
  match key with
  | Some k => Returned {| apiKey := k |}
  | None => Raised "An API Key must be set."
  end.

End Service.

(** ** The message list of [App.tsx] *)

Module App.

Inductive ContentType := text_t | image_t | video_t | grounding_t | loading_t | error_t.

(** A content object with the properties the application writes. *)
Record Content := {
  type : ContentType;
  text : option string;
  isTyping : option bool;
  url : option string;
  prompt : option string
}.

Inductive Role := user | model.

Record Message := {
  id : string;
  role : Role;
  content : Content;
  timestamp : Z
}.

Definition text_content (t : string) (typing : option bool) : Content :=
  {| type := text_t; text := Some t; isTyping := typing; url := None; prompt := None |}.

Definition loading_content (t : string) : Content :=
  {| type := loading_t; text := Some t; isTyping := None; url := None; prompt := None |}.

(** [{ ...msg, content: c }]. *)
Definition with_content (msg : Message) (c : Content) : Message :=
  {| id := id msg; role := role msg; content := c; timestamp := timestamp msg |}.

(** [addMessage]: the updater given to [setMessages], with the identifier
    [uuidv4()] returned and the date [new Date()]. *)
Definition addMessage (r : Role) (c : Content) (uuid : string) (now : Z)
    (prev : list Message) : list Message :=
  prev ++ [{| id := uuid; role := r; content := c; timestamp := now |}].

(** [updateMessageContent]: the updater given to [setMessages]. *)
Definition updateMessageContent (i : string) (newContent : Content)
    (prev : list Message) : list Message :=
  (fun msg => if String.eqb (id msg) i then with_content msg newContent else msg) <$> prev.

(** [{ ...msg.content, type: 'text', text: fullResponse, isTyping: b }]. *)
Definition spread_text (c : Content) (fullResponse : string) (b : bool) : Content :=
  {| type := text_t; text := Some fullResponse; isTyping := Some b;
     url := url c; prompt := prompt c |}.

(** The updater of the later chunks and of the end of the stream. *)
Definition set_text (messageId : string) (fullResponse : string) (b : bool)
    (prev : list Message) : list Message :=
  (fun msg => if String.eqb (id msg) messageId
              then with_content msg (spread_text (content msg) fullResponse b)
              else msg) <$> prev.

(** [fullResponse += chunk.text]: a chunk without text adds the text
    ["undefined"]. *)
Definition chunk_text (chunk : option string) : string := default "undefined" chunk.

(** The [for await] loop of [streamTextResponse]; the result is
    [fullResponse] and the message list after the updaters ran. *)
Fixpoint stream_loop (messageId : string) (stream : list (option string))
    (fullResponse : string) (firstChunk : bool) (messages : list Message) :
    string * list Message :=
  match stream with
  | [] => (fullResponse, messages)
  | chunk :: rest =>
      let fullResponse := fullResponse +:+ chunk_text chunk in
      if firstChunk then
        stream_loop messageId rest fullResponse false
          (updateMessageContent messageId (text_content fullResponse (Some true)) messages)
      else
        stream_loop messageId rest fullResponse false
          (set_text messageId fullResponse true messages)
  end.

Definition streamTextResponse (stream : list (option string)) (messageId : string)
    (messages : list Message) : list Message :=
  let '(fullResponse, messages) := stream_loop messageId stream EmptyString true messages in
  set_text messageId fullResponse false messages.

(** The texts of a stream's chunks, one after the other. *)
Definition full_text (stream : list (option string)) : string :=
  foldr (fun chunk acc => chunk_text chunk +:+ acc) EmptyString stream.

(** The content the streamed message ends with: a stream that yielded
    chunks replaced the content on its first chunk; an empty stream only
    overwrites [type], [text] and [isTyping] of the content it found. *)
Definition streamed_content (stream : list (option string)) (before : Content) : Content :=
  match stream with
  | [] => spread_text before EmptyString false
  | _ => text_content (full_text stream) (Some false)
  end.

End App.

(** ** Host and service together *)

Module System.
Import Live Host.

Record World := { host : HostState; service : State }.

(** The callbacks [handleVoiceToggle] passes to [connectLive], as they act
    on the host's state. *)
Definition host_callback (h : HostState) (e : Effect) : HostState :=
  match e with
  | cb_onOpen => {| isVoiceSessionActive := true; isLoading := false |}
  | cb_onClose | cb_onError _ =>
      {| isVoiceSessionActive := false; isLoading := isLoading h |}
  | _ => h
  end.

Definition host_after (t : list Effect) (h : HostState) : HostState :=
  foldl host_callback h t.

(** [handleModeChange], for the session: an active session is closed and
    the flag cleared. *)
Definition handleModeChange (throws : Effect -> bool) (h : HostState) : M HostState :=
  if isVoiceSessionActive h then
    closeLiveSession throws;;
    mret {| isVoiceSessionActive := false; isLoading := isLoading h |}
  else mret h.

Inductive Action :=
  | press_voice_button (input output : AudioContext)
  | change_mode
  | platform (ev : Event).

(** A host function that raises leaves the host's state as it was. *)
Definition host_result (h : HostState) (r : Run HostState) : HostState :=
  match result r with
  | Normal h' => h'
  | Throw _ => h
  end.

(** One step of the application.  The voice button is disabled while the
    host is loading. *)
Definition step (throws : Effect -> bool) (a : Action) (w : World) : World * list Effect :=
  match a with
  | press_voice_button i o =>
      if isLoading (host w) then (w, [])
      else
        let r := handleVoiceToggle throws i o (host w) (service w) in
        ({| host := host_result (host w) r; service := final r |}, trace r)
  | change_mode =>
      let r := handleModeChange throws (host w) (service w) in
      ({| host := host_result (host w) r; service := final r |}, trace r)
  | platform ev =>
      let r := handle throws ev (service w) in
      ({| host := host_after (trace r) (host w); service := final r |}, trace r)
  end.

Fixpoint run (throws : Effect -> bool) (acts : list Action) (w : World) : World * list Effect :=
  match acts with
  | [] => (w, [])
  | a :: acts' =>
      let '(w1, t1) := step throws a w in
      let '(w2, t2) := run throws acts' w1 in
      (w2, t1 ++ t2)
  end.

Definition initial_world : World :=
  {| host := {| isVoiceSessionActive := false; isLoading := false |};
     service := initial_state |}.

(** The host shows a session as active only while the service holds a
    session handle. *)
Definition holds_a_session (w : World) : Prop :=
  isVoiceSessionActive (host w) = true -> is_Some (liveSession (service w)).

End System.

Import Live.

(** Unfolds the monad of a handler down to records and case distinctions. *)
Ltac unfold_run :=
  unfold mbind, M_bind, mret, M_ret, bind, ret, get, modify, throw, lift,
    opt_call in *;
  cbn [result final trace] in *.

(** * Properties *)

(** ** The frame encoder *)

Section EncoderFacts.
Import Encoder.

(** The loop fills exactly the slots [0 .. l-1], each from its own sample. *)
Lemma fill_loop_spec (inputData : list Q) (n i : nat) (int16 : list Z) :
  (i + n)%nat = length inputData ->
  length int16 = length inputData ->
  (forall j, (j < i)%nat -> int16 !! j = int16_of_sample <$> inputData !! j) ->
  fill_loop inputData n i int16 = int16_of_sample <$> inputData.
Proof.
  revert i int16. induction n as [|n IH]; intros i int16 Hi Hlen Hdone; simpl.
  - apply list_eq. intros j. rewrite list_lookup_fmap.
    destruct (decide (j < i)%nat) as [Hj|Hj]; [by apply Hdone|].
    rewrite !lookup_ge_None_2; [done| lia | lia].
  - destruct (lookup_lt_is_Some_2 inputData i) as [x Hx]; [lia|].
    rewrite Hx. apply IH; [lia | by rewrite length_insert |].
    intros j Hj. destruct (decide (j = i)) as [->|Hne].
    + rewrite list_lookup_insert_eq; [by rewrite Hx | lia].
    + rewrite list_lookup_insert_ne; [apply Hdone; lia | done].
Qed.

Lemma int16_samples_map (inputData : list Q) :
  int16_samples inputData = int16_of_sample <$> inputData.
Proof.
  unfold int16_samples. apply fill_loop_spec.
  - lia.
  - apply length_replicate.
  - intros j Hj. lia.
Qed.

Lemma int16_samples_length (inputData : list Q) :
  length (int16_samples inputData) = length inputData.
Proof. rewrite int16_samples_map. apply length_fmap. Qed.

Lemma Uint8Array_length (int16 : list Z) :
  length (Uint8Array_of_int16 int16) = (2 * length int16)%nat.
Proof.
  unfold Uint8Array_of_int16. induction int16 as [|v vs IH]; simpl; [done|].
  rewrite IH. lia.
Qed.

(** Two bytes per sample, whatever the samples are. *)
Lemma pcm_frame_length (inputData : list Q) :
  length (pcm_frame inputData) = (2 * length inputData)%nat.
Proof.
  unfold pcm_frame. by rewrite Uint8Array_length, int16_samples_length.
Qed.

(** Truncation stays between integer bounds that enclose zero. *)
Lemma quot_bounds (m d a b : Z) :
  0 < d -> a <= 0 -> 0 < b -> a * d <= m < b * d -> a <= Z.quot m d < b.
Proof.
  intros Hd Ha Hb [Hlo Hhi].
  destruct (Z_le_gt_dec 0 m) as [Hm|Hm].
  - rewrite Z.quot_div_nonneg by lia. split.
    + transitivity 0; [done | apply Z.div_pos; lia].
    + apply Z.div_lt_upper_bound; lia.
  - replace m with (- (- m)) by lia.
    rewrite Z.quot_opp_l, Z.quot_div_nonneg by lia.
    assert (0 <= - m / d) by (apply Z.div_pos; lia).
    assert (- m / d <= - a) by (apply Z.div_le_upper_bound; lia).
    lia.
Qed.

Lemma js_trunc_scaled_range (x : Q) :
  below_full_scale x -> int16_range (js_trunc (x * 32768)%Q).
Proof.
  intros [Hlo Hhi]. unfold int16_range, js_trunc.
  destruct x as [n d]. unfold Qle, Qlt in *. simpl in *.
  rewrite Pos.mul_1_r.
  assert (-32768 <= Z.quot (n * 32768) (Z.pos d) < 32768); [|lia].
  apply quot_bounds; lia.
Qed.

(** Below full scale nothing wraps: the stored value is the truncation. *)
Lemma int16_of_sample_trunc (x : Q) :
  below_full_scale x -> int16_of_sample x = js_trunc (x * 32768)%Q.
Proof.
  intros Hx. pose proof (js_trunc_scaled_range x Hx) as Hr.
  unfold int16_of_sample, ToInt16, int16_range in *.
  set (k := js_trunc (x * 32768)%Q) in *.
  destruct (Z_le_gt_dec 0 k) as [Hk|Hk].
  - rewrite (Z.mod_small k 65536) by lia.
    destruct (Z.leb_spec 32768 k); lia.
  - replace (k mod 65536) with (k + 65536).
    + destruct (Z.leb_spec 32768 (k + 65536)); lia.
    + apply (Z.mod_unique_pos k 65536 (-1)); lia.
Qed.

Lemma int16_of_sample_range (x : Q) :
  below_full_scale x -> int16_range (int16_of_sample x).
Proof.
  intros Hx. rewrite int16_of_sample_trunc by done.
  by apply js_trunc_scaled_range.
Qed.

(** The two bytes of a slot are the low and the high byte of its two's
    complement. *)
Lemma int16_bytes_le (v : Z) :
  int16_bytes v = [v mod 256; (v / 256) mod 256].
Proof.
  unfold int16_bytes. f_equal; [|f_equal].
  - change 255 with (Z.ones 8). rewrite Z.land_ones by lia.
    change (2 ^ 8) with 256. Z.div_mod_to_equations. lia.
  - rewrite Z.shiftr_div_pow2 by lia. change (2 ^ 8) with 256.
    Z.div_mod_to_equations. lia.
Qed.

Lemma Uint8Array_lookup (int16 : list Z) (i : nat) (v : Z) :
  int16 !! i = Some v ->
  Uint8Array_of_int16 int16 !! (2 * i)%nat = Some (v mod 256) /\
  Uint8Array_of_int16 int16 !! (2 * i + 1)%nat = Some ((v / 256) mod 256).
Proof.
  unfold Uint8Array_of_int16. revert i.
  induction int16 as [|w ws IH]; intros i Hi; [done|].
  cbn [flat_map]. rewrite int16_bytes_le.
  destruct i as [|i]; simpl in Hi.
  - injection Hi as ->. done.
  - replace (2 * S i)%nat with (S (S (2 * i))) by lia. simpl.
    by apply IH.
Qed.

(** Reading the bytes back, least significant first, recovers the slots. *)
Lemma int16_of_bytes_inv (v : Z) :
  int16_range v -> int16_of_bytes (v mod 256) ((v / 256) mod 256) = v.
Proof.
  unfold int16_range, int16_of_bytes. intros Hv.
  destruct (Z.leb_spec 32768 (v mod 256 + 256 * ((v / 256) mod 256)));
    Z.div_mod_to_equations; lia.
Qed.

Lemma int16_of_pcm_inv (int16 : list Z) :
  Forall int16_range int16 -> int16_of_pcm (Uint8Array_of_int16 int16) = int16.
Proof.
  unfold Uint8Array_of_int16. induction 1 as [|v vs Hv _ IH]; [done|].
  cbn [flat_map]. rewrite int16_bytes_le. simpl.
  by rewrite int16_of_bytes_inv, IH.
Qed.

(** What one slot loses: less than one quantization step. *)
Lemma sample_round_trip (x : Q) :
  below_full_scale x ->
  (Qabs (x - decode_sample (int16_of_sample x)) < quantization_step)%Q.
Proof.
  intros Hx. rewrite int16_of_sample_trunc by done.
  apply Qabs_Qlt_condition.
  unfold decode_sample, decode_sample_with, quantization_step, js_trunc.
  destruct x as [n d]. unfold Qlt, Qminus, Qplus, Qopp, Qmult, inject_Z. simpl.
  rewrite !Pos.mul_1_r.
  pose proof (Z.quot_rem' (n * 32768) (Z.pos d)) as Hqr.
  assert (- Z.pos d < Z.rem (n * 32768) (Z.pos d) < Z.pos d) as Hrem.
  { pose proof (Z.rem_bound_abs (n * 32768) (Z.pos d)). lia. }
  set (k := Z.quot (n * 32768) (Z.pos d)) in *.
  set (r := Z.rem (n * 32768) (Z.pos d)) in *.
  rewrite !Pos2Z.inj_mul. nia.
Qed.

(** The round trip of a whole chunk that stays below full scale. *)
Lemma chunk_round_trip (inputData : list Q) :
  Forall below_full_scale inputData ->
  Forall2 (fun x y => (Qabs (x - y) < quantization_step)%Q)
    inputData (decode_frame (pcm_frame inputData)).
Proof.
  intros Hin. unfold decode_frame, pcm_frame.
  rewrite int16_samples_map, int16_of_pcm_inv.
  - induction Hin as [|x xs Hx _ IH]; constructor; [|done].
    by apply sample_round_trip.
  - induction Hin as [|x xs Hx _ IH]; constructor; [|done].
    by apply int16_of_sample_range.
Qed.

(** C2, as the code has it: below full scale every sample is stored as the
    truncation toward zero of [sample * 32768], which fits the signed 16-bit
    range; the slots are as many as the samples, in the same order, and each
    is written low byte first. *)
Theorem frame_encoder_truncates (inputData : list Q) :
  Forall below_full_scale inputData ->
  length (int16_samples inputData) = length inputData /\
  length (pcm_frame inputData) = (2 * length inputData)%nat /\
  forall (i : nat) (x : Q), inputData !! i = Some x ->
    let v := js_trunc (x * 32768)%Q in
    int16_range v /\
    int16_samples inputData !! i = Some v /\
    pcm_frame inputData !! (2 * i)%nat = Some (v mod 256) /\
    pcm_frame inputData !! (2 * i + 1)%nat = Some ((v / 256) mod 256).
Proof.
  intros Hin. split; [apply int16_samples_length|].
  split; [apply pcm_frame_length|].
  intros i x Hi v.
  assert (below_full_scale x) as Hx.
  { rewrite Forall_lookup in Hin. by apply (Hin i). }
  assert (int16_samples inputData !! i = Some v) as Hv.
  { rewrite int16_samples_map, list_lookup_fmap, Hi. simpl.
    by rewrite int16_of_sample_trunc. }
  split; [by apply js_trunc_scaled_range|].
  split; [done|]. by apply Uint8Array_lookup.
Qed.

(** The chunk of the specification's example: 4096 samples of [0.5] give
    4096 slots holding [16384], each written as the bytes [0x00 0x40]. *)
Lemma frame_encoder_truncates_witness :
  Forall below_full_scale (replicate 4096 (1 # 2)%Q) /\
  forall i : nat, (i < 4096)%nat ->
    int16_samples (replicate 4096 (1 # 2)%Q) !! i = Some 16384 /\
    pcm_frame (replicate 4096 (1 # 2)%Q) !! (2 * i)%nat = Some 0 /\
    pcm_frame (replicate 4096 (1 # 2)%Q) !! (2 * i + 1)%nat = Some 64.
Proof.
  assert (Forall below_full_scale (replicate 4096 (1 # 2)%Q)) as Hin.
  { apply Forall_replicate. split; [discriminate | reflexivity]. }
  split; [exact Hin|]. intros i Hi.
  destruct (frame_encoder_truncates _ Hin) as (_ & _ & Hall).
  destruct (Hall i (1 # 2)%Q) as (_ & Hv & Hlo & Hhi).
  - by apply lookup_replicate_2.
  - auto.
Defined.

(** C2 as stated fails on the code: the chunk of 4096 samples of [0.5] does
    not encode to slots holding [16383], and the conversion is not
    [round(sample * 32767)]: at [0.75] the code stores [24576], the stated
    formula gives [24575]. *)
Lemma frame_encoder_counterexample :
  Forall in_unit_range (replicate 4096 (1 # 2)%Q) /\
  int16_samples (replicate 4096 (1 # 2)%Q) = replicate 4096 16384 /\
  pcm_frame (replicate 4096 (1 # 2)%Q) <> Uint8Array_of_int16 (replicate 4096 16383) /\
  in_unit_range (3 # 4)%Q /\
  int16_samples [(3 # 4)%Q] = [24576] /\
  int16_samples [(3 # 4)%Q] <> spec_convert <$> [(3 # 4)%Q].
Proof.
  split.
  { apply Forall_replicate. split; discriminate. }
  split.
  { rewrite int16_samples_map, fmap_replicate. reflexivity. }
  split.
  { unfold pcm_frame. rewrite int16_samples_map, fmap_replicate.
    intros Heq. apply (f_equal (fun l => l !! 1%nat)) in Heq.
    vm_compute in Heq. discriminate. }
  split.
  { split; discriminate. }
  split; [reflexivity|].
  vm_compute. discriminate.
Qed.

(** C6, at the failing input: the full-scale sample [1.0] is in the input
    range, is stored as [-32768] (bytes [0x00 0x80]) and reads back as
    [-1.0], two units away from the original; whatever positive step the
    reading side uses, the value read back is more than one step away.  The
    byte count is still [2 * L]. *)
Theorem full_scale_sample_wraps :
  in_unit_range 1%Q /\
  int16_samples [1%Q] = [-32768] /\
  pcm_frame [1%Q] = [0; 128] /\
  length (pcm_frame [1%Q]) = (2 * length [1%Q])%nat /\
  int16_of_pcm (pcm_frame [1%Q]) = [-32768] /\
  decode_frame (pcm_frame [1%Q]) = [(-32768 # 32768)%Q] /\
  (Qabs (1 - (-32768 # 32768)) == 2)%Q /\
  ~ (Qabs (1 - (-32768 # 32768)) <= quantization_step)%Q /\
  forall step : Q, (0 < step)%Q ->
    ~ (Qabs (1 - decode_sample_with step (-32768)) <= step)%Q.
Proof.
  split; [split; discriminate|].
  repeat (split; [reflexivity|]).
  split.
  { intros H. vm_compute in H. by apply H. }
  intros step Hstep H. apply Qabs_Qle_condition in H as [_ H].
  unfold decode_sample_with in H.
  change (inject_Z (-32768)) with (-32768 # 1)%Q in H. lra.
Qed.

Lemma full_scale_sample_wraps_witness :
  (0 < 1 # 32767)%Q /\
  ~ (Qabs (1 - decode_sample_with (1 # 32767) (-32768)) <= 1 # 32767)%Q.
Proof.
  destruct full_scale_sample_wraps as (_ & _ & _ & _ & _ & _ & _ & _ & Hany).
  split; [reflexivity|]. apply Hany. reflexivity.
Defined.

End EncoderFacts.

(** ** Rounded sums *)

Section Binary64Facts.
Import Binary64.

Lemma round_half_even_floor (x : Q) :
  Qfloor x <= round_half_even x <= Qfloor x + 1.
Proof.
  unfold round_half_even.
  destruct (x - inject_Z (Qfloor x) ?= 1 # 2)%Q; [destruct (Z.even _)| |]; lia.
Qed.

Lemma round_half_even_ge (x : Q) (M : Z) :
  (inject_Z M <= x)%Q -> M <= round_half_even x.
Proof.
  intros H. pose proof (round_half_even_floor x) as [Hf _].
  apply Qfloor_resp_le in H. rewrite Qfloor_Z in H. lia.
Qed.

Lemma round_half_even_le (x : Q) (M : Z) :
  (x <= inject_Z M)%Q -> round_half_even x <= M.
Proof.
  intros H. pose proof (round_half_even_floor x) as [_ Hc].
  pose proof (Qfloor_resp_le _ _ H) as Hfl. rewrite Qfloor_Z in Hfl.
  destruct (Z_lt_le_dec (Qfloor x) M) as [Hlt|Hge]; [lia|].
  assert (Qfloor x = M) as Heq by lia.
  unfold round_half_even. rewrite Heq.
  assert (x - inject_Z M < 1 # 2)%Q as Hfrac by lra.
  destruct (Qcompare_spec (x - inject_Z M) (1 # 2)) as [He|Hl|Hg]; [lra|lia|lra].
Qed.

Lemma dropped_bits_nonneg (n : Z) : 0 <= dropped_bits n.
Proof. unfold dropped_bits. lia. Qed.

Lemma dropped_bits_upper (n : Z) : 0 <= n -> n < 2 ^ (53 + dropped_bits n).
Proof.
  intros Hn. unfold dropped_bits.
  destruct (Z.eq_dec n 0) as [->|Hne].
  - apply Z.pow_pos_nonneg; lia.
  - destruct (Z.log2_spec n) as [_ Hhi]; [lia|].
    eapply Z.lt_le_trans; [exact Hhi|].
    apply Z.pow_le_mono_r; lia.
Qed.

Lemma dropped_bits_lower (n : Z) :
  0 < dropped_bits n -> 2 ^ (52 + dropped_bits n) <= n.
Proof.
  unfold dropped_bits. intros Hk.
  assert (0 < n) as Hn.
  { destruct (Z_lt_le_dec 0 n) as [|Hle]; [done|].
    rewrite (Z.log2_nonpos n) in Hk by done. lia. }
  destruct (Z.log2_spec n Hn) as [Hlo _].
  replace (52 + Z.max 0 (Z.log2 n - 52)) with (Z.log2 n) by lia. done.
Qed.

Lemma Qdiv_pow_ge (X : Q) (M k : Z) :
  0 <= k -> (inject_Z (M * 2 ^ k) <= X)%Q -> (inject_Z M <= X / inject_Z (2 ^ k))%Q.
Proof.
  intros Hk H. apply Qle_shift_div_l.
  - change 0%Q with (inject_Z 0). rewrite <- Zlt_Qlt. apply Z.pow_pos_nonneg; lia.
  - by rewrite <- inject_Z_mult.
Qed.

Lemma Qdiv_pow_le (X : Q) (M k : Z) :
  0 <= k -> (X <= inject_Z (M * 2 ^ k))%Q -> (X / inject_Z (2 ^ k) <= inject_Z M)%Q.
Proof.
  intros Hk H. apply Qle_shift_div_r.
  - change 0%Q with (inject_Z 0). rewrite <- Zlt_Qlt. apply Z.pow_pos_nonneg; lia.
  - by rewrite <- inject_Z_mult.
Qed.

Lemma Qfloor_nonneg (X : Q) : (0 <= X)%Q -> 0 <= Qfloor X.
Proof.
  intros H. change 0 with (Qfloor 0). by apply Qfloor_resp_le.
Qed.

Lemma round53_ge (X : Q) (m j : Z) :
  0 <= m < 2 ^ 53 -> 0 <= j -> (inject_Z (m * 2 ^ j) <= X)%Q ->
  m * 2 ^ j <= round53 X.
Proof.
  intros Hm Hj HX. unfold round53.
  assert (0 <= X)%Q as H0.
  { eapply Qle_trans; [|exact HX]. change 0%Q with (inject_Z 0).
    rewrite <- Zle_Qle. apply Z.mul_nonneg_nonneg; [lia|]. apply Z.pow_nonneg. lia. }
  set (k := dropped_bits (Qfloor X)).
  pose proof (dropped_bits_nonneg (Qfloor X)) as Hk. fold k in Hk.
  assert (0 < 2 ^ k) as Hpk by (apply Z.pow_pos_nonneg; lia).
  destruct (Z_le_gt_dec k j) as [Hkj|Hkj].
  - assert (m * 2 ^ j = m * 2 ^ (j - k) * 2 ^ k) as Hsplit.
    { rewrite <- Z.mul_assoc, <- Z.pow_add_r by lia. f_equal. f_equal. lia. }
    rewrite Hsplit in *.
    apply Z.mul_le_mono_nonneg_r; [lia|].
    apply round_half_even_ge. by apply Qdiv_pow_ge.
  - pose proof (dropped_bits_lower (Qfloor X)) as Hlow. fold k in Hlow.
    specialize (Hlow ltac:(lia)).
    assert (2 ^ 52 <= round_half_even (X / inject_Z (2 ^ k))) as Hr.
    { apply round_half_even_ge. apply Qdiv_pow_ge; [lia|].
      rewrite <- Z.pow_add_r by lia.
      eapply Qle_trans; [|apply Qfloor_le]. by rewrite <- Zle_Qle. }
    assert (2 ^ 53 * 2 ^ j <= 2 ^ 52 * 2 ^ k).
    { rewrite <- !Z.pow_add_r by lia. apply Z.pow_le_mono_r; lia. }
    assert (0 < 2 ^ j) by (apply Z.pow_pos_nonneg; lia).
    nia.
Qed.

Lemma round53_le (X : Q) (m j : Z) :
  0 <= m < 2 ^ 53 -> 0 <= j -> (0 <= X)%Q -> (X <= inject_Z (m * 2 ^ j))%Q ->
  round53 X <= m * 2 ^ j.
Proof.
  intros Hm Hj H0 HX. unfold round53.
  set (k := dropped_bits (Qfloor X)).
  pose proof (dropped_bits_nonneg (Qfloor X)) as Hk. fold k in Hk.
  assert (0 < 2 ^ k) as Hpk by (apply Z.pow_pos_nonneg; lia).
  destruct (Z_le_gt_dec k j) as [Hkj|Hkj].
  - assert (m * 2 ^ j = m * 2 ^ (j - k) * 2 ^ k) as Hsplit.
    { rewrite <- Z.mul_assoc, <- Z.pow_add_r by lia. f_equal. f_equal. lia. }
    rewrite Hsplit in *.
    apply Z.mul_le_mono_nonneg_r; [lia|].
    apply round_half_even_le. by apply Qdiv_pow_le.
  - exfalso.
    pose proof (dropped_bits_lower (Qfloor X)) as Hlow. fold k in Hlow.
    specialize (Hlow ltac:(lia)).
    assert (Qfloor X <= m * 2 ^ j) as Hfl.
    { pose proof (Qfloor_resp_le _ _ HX) as H. by rewrite Qfloor_Z in H. }
    assert (2 ^ 53 * 2 ^ j <= 2 ^ (52 + k)).
    { rewrite <- !Z.pow_add_r by lia. apply Z.pow_le_mono_r; lia. }
    assert (0 < 2 ^ j) by (apply Z.pow_pos_nonneg; lia).
    nia.
Qed.

Lemma round53_fix (m j : Z) :
  0 <= m < 2 ^ 53 -> 0 <= j -> round53 (inject_Z (m * 2 ^ j)) = m * 2 ^ j.
Proof.
  intros Hm Hj. apply Z.le_antisymm.
  - apply round53_le; [done|done| |apply Qle_refl].
    change 0%Q with (inject_Z 0). rewrite <- Zle_Qle.
    apply Z.mul_nonneg_nonneg; [lia|]. apply Z.pow_nonneg. lia.
  - apply round53_ge; [done|done|apply Qle_refl].
Qed.

Lemma round53_grid (X : Q) :
  (0 <= X)%Q ->
  exists m k, 0 <= m < 2 ^ 53 /\ 0 <= k /\ round53 X = m * 2 ^ k.
Proof.
  intros H0. unfold round53.
  set (k := dropped_bits (Qfloor X)).
  pose proof (dropped_bits_nonneg (Qfloor X)) as Hk. fold k in Hk.
  pose proof (Qfloor_nonneg X H0) as Hfl.
  pose proof (dropped_bits_upper (Qfloor X) Hfl) as Hup. fold k in Hup.
  assert (0 < 2 ^ k) as Hpk by (apply Z.pow_pos_nonneg; lia).
  set (r := round_half_even (X / inject_Z (2 ^ k))).
  assert (0 <= r) as Hr0.
  { apply (round_half_even_ge _ 0). apply Qdiv_pow_ge; [done|]. by rewrite Z.mul_0_l. }
  assert (r <= 2 ^ 53) as Hr1.
  { apply round_half_even_le. apply Qdiv_pow_le; [done|].
    rewrite <- Z.pow_add_r by lia.
    apply Qlt_le_weak. eapply Qlt_le_trans; [apply Qlt_floor|].
    rewrite <- Zle_Qle. lia. }
  destruct (Z.eq_dec r (2 ^ 53)) as [Heq|Hne].
  - exists (2 ^ 52), (k + 1). split; [split; [apply Z.pow_nonneg; lia|]|split]; [|lia|].
    + apply Z.pow_lt_mono_r; lia.
    + rewrite Heq, <- !Z.pow_add_r by lia. f_equal. lia.
  - exists r, k. split; [lia|]. split; [lia|done].
Qed.

Lemma scale_pos : (0 < inject_Z scale)%Q.
Proof. change 0%Q with (inject_Z 0). rewrite <- Zlt_Qlt. reflexivity. Qed.

Lemma round_nonneg_eq (q : Q) :
  (0 <= q)%Q ->
  (round q == inject_Z (round53 (q * inject_Z scale)) / inject_Z scale)%Q.
Proof.
  intros H. unfold round.
  destruct (Qcompare_spec q 0) as [He|Hl|Hg]; try apply Qred_correct.
  exfalso. lra.
Qed.

Lemma scaled_nonneg (q : Q) : (0 <= q)%Q -> (0 <= q * inject_Z scale)%Q.
Proof. intros H. apply Qmult_le_0_compat; [done|]. apply Qlt_le_weak, scale_pos. Qed.

Lemma round_nonneg (q : Q) : (0 <= q)%Q -> (0 <= round q)%Q.
Proof.
  intros H. rewrite round_nonneg_eq by done.
  apply Qle_shift_div_l; [apply scale_pos|]. rewrite Qmult_0_l.
  destruct (round53_grid _ (scaled_nonneg q H)) as (m & k & Hm & Hk & ->).
  change 0%Q with (inject_Z 0). rewrite <- Zle_Qle.
  apply Z.mul_nonneg_nonneg; [lia|]. apply Z.pow_nonneg. lia.
Qed.











Lemma fadd_nonneg (t d : Q) : (0 <= t)%Q -> (0 <= d)%Q -> (0 <= fadd t d)%Q.
Proof. intros Ht Hd. apply round_nonneg. lra. Qed.



(** The rounding on known sums: [0.1 + 0.2] is [0.30000000000000004],
    [0.1 + 0.7] is [0.7999999999999999], a sum that needs no rounding is
    exact, one third is rounded to its nearest number, and an integer half
    way between two numbers goes to the one with the even significand. *)
Lemma fadd_examples :
  fadd tenth (3602879701896397 # 18014398509481984) =
    (1351079888211149 # 4503599627370496)%Q /\
  fadd tenth seven_tenths = (7205759403792793 # 9007199254740992)%Q /\
  fadd (1 # 2) (1 # 4) = (3 # 4)%Q /\
  round (1 # 3) = (6004799503160661 # 18014398509481984)%Q /\
  round (9007199254740993 # 1) = (9007199254740992 # 1)%Q /\
  round (9007199254740995 # 1) = (9007199254740996 # 1)%Q /\
  round (- (1 # 10)) = (- tenth)%Q.
Proof. vm_compute. repeat split; reflexivity. Qed.

End Binary64Facts.

(** ** Runs of the handlers *)

Section Rows.
Variable throws : Effect -> bool.

Lemma first_throw_app (a b : list Effect) :
  first_throw throws (a ++ b) =
    match first_throw throws a with
    | Normal _ => first_throw throws b
    | Throw x => Throw x
    end.
Proof.
  induction a as [|e a IH]; simpl; [done|]. by destruct (throws e).
Qed.

Lemma attempted_app (a b : list Effect) :
  attempted throws (a ++ b) =
    match first_throw throws a with
    | Normal _ => a ++ attempted throws b
    | Throw _ => attempted throws a
    end.
Proof.
  induction a as [|e a IH]; simpl; [done|].
  destruct (throws e); [done|]. rewrite IH. by destruct (first_throw throws a).
Qed.

Lemma attempted_normal (es : list Effect) :
  first_throw throws es = Normal tt -> attempted throws es = es.
Proof.
  induction es as [|e es IH]; simpl; [done|].
  destruct (throws e); [done|]. intros H. by rewrite IH.
Qed.

Lemma first_throw_normal (es : list Effect) :
  first_throw throws es = Normal tt <-> Forall (fun e => throws e = false) es.
Proof.
  induction es as [|e es IH]; simpl.
  - split; [constructor | done].
  - destruct (throws e) eqn:He.
    + split; [done|]. intros H. apply Forall_cons in H as [H _]. congruence.
    + rewrite IH. split; [by constructor | by intros [_ ?]%Forall_cons].
Qed.

(** The calls reached are among the calls of the row. *)
Lemma attempted_Forall (P : Effect -> Prop) (es : list Effect) :
  Forall P es -> Forall P (attempted throws es).
Proof.
  induction 1 as [|e es He _ IH]; simpl; [constructor|].
  constructor; [done|]. by destruct (throws e).
Qed.

Lemma call_run (e : Effect) (s : State) :
  call throws e s = perform throws [e] s.
Proof. unfold call, perform. simpl. by destruct (throws e). Qed.

Lemma forEach_call_run {A} (f : A -> Effect) (xs : list A) (s : State) :
  forEach xs (fun x => call throws (f x)) s = perform throws (f <$> xs) s.
Proof.
  revert s. induction xs as [|x xs IH]; intros s; [done|].
  cbn [forEach]. unfold bind. rewrite IH.
  unfold call, perform. simpl. by destruct (throws (f x)).
Qed.

Lemma opt_call_run {A} (f : A -> Effect) (o : option A) (s : State) :
  opt_call o (fun a => call throws (f a)) s =
    perform throws (match o with Some a => [f a] | None => [] end) s.
Proof. destruct o as [a|]; [apply call_run | done]. Qed.

Lemma opt_forEach_run {A C} (f : C -> Effect) (g : A -> list C) (o : option A)
    (s : State) :
  opt_call o (fun a => forEach (g a) (fun c => call throws (f c))) s =
    perform throws (match o with Some a => f <$> g a | None => [] end) s.
Proof. destruct o as [a|]; [apply forEach_call_run | done]. Qed.

(** How a run continues after each kind of step. *)
Lemma bind_get {B} (k : State -> M B) (s : State) : bind get k s = k s s.
Proof. unfold bind, get. cbn. by destruct (k s s). Qed.

Lemma bind_modify {B} (f : State -> State) (k : unit -> M B) (s : State) :
  bind (modify f) k s = k tt (f s).
Proof. unfold bind, modify. cbn. by destruct (k tt (f s)). Qed.

Lemma bind_calls {B} (m : M unit) (es : list Effect) (k : unit -> M B) (s : State) :
  m s = perform throws es s ->
  bind m k s =
    match first_throw throws es with
    | Normal _ => after es (k tt s)
    | Throw x => {| result := Throw x; final := s; trace := attempted throws es |}
    end.
Proof.
  intros Hm. unfold bind. rewrite Hm. unfold perform, after. cbn.
  destruct (first_throw throws es) as [[]|] eqn:Hes; [|done].
  by rewrite (attempted_normal _ Hes).
Qed.

Lemma bind_lift {A B} (c : completion A) (k : A -> M B) (s : State) :
  bind (lift c) k s =
    match c with
    | Normal a => k a s
    | Throw x => {| result := Throw x; final := s; trace := [] |}
    end.
Proof. destruct c as [a|x]; [|done]. unfold bind. cbn. by destruct (k a s). Qed.

(** [closeLiveSession], run: the transport is closed first; if that call
    raises, nothing else happens.  Otherwise [liveSession] is cleared and the
    other releases follow; the first of them that raises ends the function
    with [sources] and [nextStartTime] as they were. *)
Lemma closeLiveSession_run (s : State) :
  closeLiveSession throws s =
    match first_throw throws (session_release s) with
    | Throw x =>
        {| result := Throw x; final := s;
           trace := attempted throws (session_release s) |}
    | Normal _ =>
        match first_throw throws (device_releases s) with
        | Throw x =>
            {| result := Throw x; final := set_liveSession None s;
               trace := session_release s ++ attempted throws (device_releases s) |}
        | Normal _ =>
            {| result := Normal tt; final := torn_down s; trace := releases s |}
        end
    end.
Proof.
  unfold closeLiveSession, mbind, M_bind. rewrite bind_get.
  erewrite bind_calls by apply opt_call_run.
  fold (session_release s).
  destruct (first_throw throws (session_release s)) as [[]|]; [|done].
  rewrite bind_modify.
  unfold releases, device_releases.
  set (tracks := match mediaStream s with
                 | Some m => track_stop <$> getTracks m | None => [] end).
  set (proc := match scriptProcessor s with
               | Some p => [processor_disconnect p] | None => [] end).
  set (cin := match inputAudioContext s with
              | Some c => [context_close c] | None => [] end).
  set (cout := match outputAudioContext s with
               | Some c => [context_close c] | None => [] end).
  set (nodes := source_stop <$> sources s).
  erewrite (bind_calls _ tracks) by apply opt_forEach_run.
  rewrite !first_throw_app, !attempted_app.
  destruct (first_throw throws tracks) as [[]|]; [|done].
  erewrite (bind_calls _ proc) by apply opt_call_run.
  destruct (first_throw throws proc) as [[]|]; [|done].
  erewrite (bind_calls _ cin) by apply opt_call_run.
  destruct (first_throw throws cin) as [[]|]; [|done].
  erewrite (bind_calls _ cout) by apply opt_call_run.
  destruct (first_throw throws cout) as [[]|]; [|done].
  erewrite (bind_calls _ nodes) by apply forEach_call_run.
  destruct (first_throw throws nodes) as [[]|]; [|done].
  rewrite bind_modify. unfold after, modify, torn_down. cbn.
  by rewrite app_nil_r.
Qed.

End Rows.

(** ** Teardown: [closeLiveSession] *)




Lemma releases_not_callbacks (s : State) :
  Forall (fun e => is_host_callback e = false) (releases s).
Proof.
  unfold releases, session_release, device_releases.
  repeat apply Forall_app_2; repeat case_match;
    try (apply Forall_fmap, Forall_true; done);
    repeat constructor.
Qed.

Lemma releases_not_connect (s : State) :
  Forall (fun e => e <> live_connect) (releases s).
Proof.
  unfold releases, session_release, device_releases.
  repeat apply Forall_app_2; repeat case_match;
    try (apply Forall_fmap, Forall_true; done);
    repeat constructor; done.
Qed.

Lemma releases_not_sends (s : State) :
  Forall (fun e => is_send e = false) (releases s).
Proof.
  unfold releases, session_release, device_releases.
  repeat apply Forall_app_2; repeat case_match;
    try (apply Forall_fmap, Forall_true; done);
    repeat constructor.
Qed.

(** Whatever raises, the calls [closeLiveSession] makes are the releases, in
    order, up to the first one that raises. *)
Lemma closeLiveSession_trace (throws : Effect -> bool) (s : State) :
  trace (closeLiveSession throws s) = attempted throws (releases s) /\
  result (closeLiveSession throws s) = first_throw throws (releases s).
Proof.
  rewrite closeLiveSession_run. unfold releases.
  rewrite first_throw_app, attempted_app.
  destruct (first_throw throws (session_release s)) as [[]|] eqn:H1; [|done].
  destruct (first_throw throws (device_releases s)) as [[]|] eqn:H2; [|done].
  cbn. by rewrite (attempted_normal _ _ H2).
Qed.


(** C7, as the code has it: [closeLiveSession] makes its releases in order
    (transport, capture tracks, processor, both contexts, then every
    scheduled node, in the order the nodes were added) up to the first one
    that raises, and has no handler for exceptions.  When none raises it
    returns having made them all, with [liveSession] cleared, [sources]
    empty and [nextStartTime] at zero.  When the transport's [close] raises,
    every variable is as it was; when a later release raises, [liveSession]
    is cleared and nothing else has changed: [sources] is not cleared and
    the cursor is not reset. *)
Theorem teardown_runs_until_a_release_throws (throws : Effect -> bool) (s : State) :
  let r := closeLiveSession throws s in
  result r = first_throw throws (releases s) /\
  trace r = attempted throws (releases s) /\
  releases s =
    match liveSession s with Some h => [session_close h] | None => [] end ++
    match mediaStream s with Some m => track_stop <$> getTracks m | None => [] end ++
    match scriptProcessor s with Some p => [processor_disconnect p] | None => [] end ++
    match inputAudioContext s with Some c => [context_close c] | None => [] end ++
    match outputAudioContext s with Some c => [context_close c] | None => [] end ++
    (source_stop <$> sources s) /\
  (Forall (fun e => throws e = false) (releases s) ->
     result r = Normal tt /\ trace r = releases s /\ final r = torn_down s /\
     liveSession (final r) = None /\ sources (final r) = [] /\
     nextStartTime (final r) = 0%Q) /\
  (forall x, first_throw throws (session_release s) = Throw x ->
     result r = Throw x /\ final r = s /\
     trace r = attempted throws (session_release s)) /\
  (forall x, first_throw throws (session_release s) = Normal tt ->
     first_throw throws (device_releases s) = Throw x ->
     result r = Throw x /\ final r = set_liveSession None s /\
     liveSession (final r) = None /\ sources (final r) = sources s /\
     nextStartTime (final r) = nextStartTime s /\
     trace r = session_release s ++ attempted throws (device_releases s)).
Proof.
  intros r. destruct (closeLiveSession_trace throws s) as [Ht Hr].
  split; [done|]. split; [done|]. split; [done|]. split; [|split].
  - intros Hok. apply first_throw_normal in Hok as Hn.
    assert (final r = torn_down s) as Hf.
    { subst r. rewrite closeLiveSession_run. unfold releases in Hn.
      rewrite first_throw_app in Hn.
      destruct (first_throw throws (session_release s)) as [[]|]; [|done].
      by rewrite Hn. }
    subst r. rewrite Hr, Ht, Hf, (attempted_normal _ _ Hn). done.
  - intros x Hx. subst r. rewrite closeLiveSession_run, Hx. done.
  - intros x Hs Hx. subst r. rewrite closeLiveSession_run, Hs, Hx. done.
Qed.

Lemma teardown_runs_until_a_release_throws_witness :
  let p n := {| currentTime := 0%Q; duration := (1 # 2)%Q; sourceNode := n |} in
  let s := (run_events no_throw
              [ev_message (audio_message "AAAA") (p 9%nat);
               ev_message (audio_message "BBBB") (p 8%nat)] open_state_example).1 in
  Forall (fun e => no_throw e = false) (releases s) /\
  sources s = [7%nat; 9%nat; 8%nat] /\
  trace (closeLiveSession no_throw s) =
    [session_close 3%nat; track_stop 4%nat; processor_disconnect 5%nat;
     context_close 1%nat; context_close 2%nat;
     source_stop 7%nat; source_stop 9%nat; source_stop 8%nat] /\
  sources (final (closeLiveSession no_throw s)) = [] /\
  nextStartTime (final (closeLiveSession no_throw s)) = 0%Q /\
  first_throw context_close_throws (device_releases s) =
    Throw (Thrown (context_close 1%nat)) /\
  sources (final (closeLiveSession context_close_throws s)) = [7%nat; 9%nat; 8%nat] /\
  liveSession (final (closeLiveSession context_close_throws s)) = None.
Proof.
  intros p s.
  assert (Forall (fun e => no_throw e = false) (releases s)) as H.
  { apply Forall_true. done. }
  assert (sources s = [7%nat; 9%nat; 8%nat]) as Hsrc by (vm_compute; reflexivity).
  assert (first_throw context_close_throws (device_releases s) =
          Throw (Thrown (context_close 1%nat))) as Hdev by (vm_compute; reflexivity).
  split; [exact H|]. split; [exact Hsrc|].
  destruct (teardown_runs_until_a_release_throws no_throw s)
    as (_ & _ & _ & Hall & _).
  destruct (Hall H) as (_ & Ht & _ & _ & Hs & Hn).
  destruct (teardown_runs_until_a_release_throws context_close_throws s)
    as (_ & _ & _ & _ & _ & Hlate).
  destruct (Hlate _ eq_refl Hdev) as (_ & _ & Hl & Hkeep & _).
  split; [|split; [exact Hs|split; [exact Hn|split; [exact Hdev|split; [|exact Hl]]]]].
  - etrans; [exact Ht|]. vm_compute. reflexivity.
  - etrans; [exact Hkeep|exact Hsrc].
Defined.

(** C7 as stated fails on the code: when [session.close()] raises, no later
    release is made, [liveSession] stays set, the scheduled node stays in
    [sources] and the cursor keeps its value; when closing a context
    raises, the other context is not closed, the scheduled node is not
    stopped and stays in [sources], and the cursor keeps its value. *)
Lemma teardown_counterexample :
  let r := closeLiveSession session_close_throws open_state_example in
  let r' := closeLiveSession context_close_throws open_state_example in
  result r = Throw (Thrown (session_close 3%nat)) /\
  trace r = [session_close 3%nat] /\
  (track_stop 4%nat ∉ trace r) /\
  (source_stop 7%nat ∉ trace r) /\
  final r = open_state_example /\
  sources (final r) <> [] /\
  ~ (nextStartTime (final r) == 0)%Q /\
  result r' = Throw (Thrown (context_close 1%nat)) /\
  trace r' = [session_close 3%nat; track_stop 4%nat; processor_disconnect 5%nat;
              context_close 1%nat] /\
  (context_close 2%nat ∉ trace r') /\
  (source_stop 7%nat ∉ trace r') /\
  sources (final r') = [7%nat] /\
  nextStartTime (final r') = (5 # 2)%Q.
Proof.
  assert (closeLiveSession session_close_throws open_state_example =
          {| result := Throw (Thrown (session_close 3%nat));
             final := open_state_example; trace := [session_close 3%nat] |}) as ->.
  { by rewrite closeLiveSession_run. }
  assert (closeLiveSession context_close_throws open_state_example =
          {| result := Throw (Thrown (context_close 1%nat));
             final := set_liveSession None open_state_example;
             trace := [session_close 3%nat; track_stop 4%nat;
                       processor_disconnect 5%nat; context_close 1%nat] |}) as ->.
  { by rewrite closeLiveSession_run. }
  cbn. repeat split; try done.
  - by intros ?%list_elem_of_singleton.
  - by intros ?%list_elem_of_singleton.
  - intros Hin. repeat (apply elem_of_cons in Hin as [Hin|Hin]; [done|]).
    by apply elem_of_nil in Hin.
  - intros Hin. repeat (apply elem_of_cons in Hin as [Hin|Hin]; [done|]).
    by apply elem_of_nil in Hin.
Qed.






(** ** The transport's error and close events *)

(** C3, as the code has it: [onerror] is the host's [onError] and nothing
    else; the module variables are left as they are and no release is made. *)
Theorem transport_error_is_only_forwarded (throws : Effect -> bool) (e : string) (s : State) :
  let r := onerror throws e s in
  final r = s /\ trace r = [cb_onError e] /\
  result r = (if throws (cb_onError e) then Throw (Thrown (cb_onError e)) else Normal tt).
Proof. done. Qed.

(** C3 as stated fails on the code: after an error on an open session the
    session handle, the capture stream, the scheduled node and the cursor are
    all still there, and none of the releases [closeLiveSession] would make
    has been made. *)
Lemma transport_error_counterexample :
  let r := onerror no_throw "socket closed" open_state_example in
  final r = open_state_example /\
  liveSession (final r) = Some 3%nat /\
  ~ idle (final r) /\
  trace r = [cb_onError "socket closed"] /\
  Forall (fun e => e ∉ trace r) (releases open_state_example) /\
  trace r <> trace (closeLiveSession no_throw open_state_example) ++ [cb_onError "socket closed"].
Proof.
  cbn. split; [done|]. split; [done|]. split.
  { intros (H & _). discriminate. }
  split; [done|]. split.
  - apply Forall_forall. intros x Hx Hin.
    apply list_elem_of_singleton in Hin. subst x.
    pose proof (releases_not_callbacks open_state_example) as Hr.
    rewrite Forall_forall in Hr. by apply Hr in Hx.
  - rewrite closeLiveSession_run. vm_compute. discriminate.
Qed.

(** ** Starting: [connectLive] and the host's toggle *)

Lemma connectLive_run (throws : Effect -> bool) (input output : AudioContext) (s : State) :
  connectLive throws input output s =
    if throws getAi then
      {| result := Throw (Thrown getAi); final := s; trace := [getAi] |}
    else
      {| result := first_throw throws [live_connect];
         final := set_audioContexts input output s;
         trace := [getAi; live_connect] |}.
Proof.
  unfold connectLive. unfold_run. unfold call. cbn.
  destruct (throws getAi); [done|]. cbn. by destruct (throws live_connect).
Qed.

(** C4, as the code has it: [connectLive] never looks at [liveSession].  With
    a session open it runs exactly as without one: it raises no error of its
    own, puts two new contexts in [inputAudioContext] and
    [outputAudioContext], starts another connection, and leaves the session
    handle, the capture stream, the processor, the cursor and [sources] as
    they are; the session that opens next overwrites the handle without
    closing the old one.  The host's toggle looks at its own flag only:
    while [isVoiceSessionActive] is set it runs [closeLiveSession] and does
    not connect; while the flag is not set it runs [connectLive], whatever
    [liveSession] holds, and releases nothing. *)
Theorem connectLive_has_no_session_guard (throws : Effect -> bool)
    (input output : AudioContext) (s : State) :
  let r := connectLive throws input output s in
  let r0 := connectLive throws input output (set_liveSession None s) in
  result r = result r0 /\ trace r = trace r0 /\
  result r = first_throw throws [getAi; live_connect] /\
  final r = (if throws getAi then s else set_audioContexts input output s) /\
  liveSession (final r) = liveSession s /\
  mediaStream (final r) = mediaStream s /\
  scriptProcessor (final r) = scriptProcessor s /\
  nextStartTime (final r) = nextStartTime s /\
  sources (final r) = sources s /\
  (forall session stream processor,
     let r' := onopen throws session stream processor s in
     liveSession (final r') = Some session /\
     Forall (fun e => forall h, e <> session_close h) (trace r')) /\
  (forall h : Host.HostState, Host.isVoiceSessionActive h = true ->
     let t := Host.handleVoiceToggle throws input output h s in
     trace t = trace (closeLiveSession throws s) /\
     final t = final (closeLiveSession throws s) /\
     Forall (fun e => e <> live_connect) (trace t)) /\
  (forall h : Host.HostState, Host.isVoiceSessionActive h = false ->
     let t := Host.handleVoiceToggle throws input output h s in
     trace t = trace r /\ final t = final r /\
     liveSession (final t) = liveSession s /\
     Forall (fun e => e = getAi \/ e = live_connect) (trace t)).
Proof.
  intros r r0. subst r r0. rewrite !connectLive_run. cbn.
  assert (forall h : Host.HostState, Host.isVoiceSessionActive h = true ->
     let t := Host.handleVoiceToggle throws input output h s in
     trace t = trace (closeLiveSession throws s) /\
     final t = final (closeLiveSession throws s) /\
     Forall (fun e => e <> live_connect) (trace t)) as Hon.
  { intros h Hh. unfold Host.handleVoiceToggle. rewrite Hh. unfold_run.
    destruct (closeLiveSession_trace throws s) as [Ht _].
    assert (Forall (fun e => e <> live_connect) (trace (closeLiveSession throws s)))
      as Hnc by (rewrite Ht; apply attempted_Forall, releases_not_connect).
    destruct (result (closeLiveSession throws s)) as [[]|]; cbn;
      rewrite ?app_nil_r; done. }
  assert (forall session stream processor,
     let r' := onopen throws session stream processor s in
     liveSession (final r') = Some session /\
     Forall (fun e => forall h, e <> session_close h) (trace r')) as Hopen.
  { intros session stream processor. unfold onopen. unfold_run.
    unfold call. cbn. destruct (throws getUserMedia); cbn.
    all: split; try done; repeat constructor; done. }
  assert (forall h : Host.HostState, Host.isVoiceSessionActive h = false ->
     let t := Host.handleVoiceToggle throws input output h s in
     trace t = trace (connectLive throws input output s) /\
     final t = final (connectLive throws input output s) /\
     liveSession (final t) = liveSession s /\
     Forall (fun e => e = getAi \/ e = live_connect) (trace t)) as Hoff.
  { intros h Hh. unfold Host.handleVoiceToggle, Host.try_catch. rewrite Hh.
    unfold_run. rewrite connectLive_run.
    assert (Forall (fun e => e = getAi \/ e = live_connect) [getAi; live_connect])
      as Hboth by (apply Forall_cons_2; [by left|apply Forall_cons_2; [by right|done]]).
    assert (Forall (fun e => e = getAi \/ e = live_connect) [getAi])
      as Hone by (apply Forall_cons_2; [by left|done]).
    destruct (throws getAi); cbn; [by rewrite ?app_nil_r|].
    destruct (throws live_connect); cbn; by rewrite ?app_nil_r. }
  rewrite connectLive_run in Hoff.
  destruct (throws getAi) eqn:Hai; cbn.
  all: do 9 (split; [done|]).
  all: split; [exact Hopen|]; split; [exact Hon|exact Hoff].
Qed.

Lemma connectLive_has_no_session_guard_witness :
  let on := {| Host.isVoiceSessionActive := true; Host.isLoading := false |} in
  let off := {| Host.isVoiceSessionActive := false; Host.isLoading := false |} in
  Host.isVoiceSessionActive on = true /\
  Host.isVoiceSessionActive off = false /\
  liveSession (final (connectLive no_throw 11%nat 12%nat open_state_example)) = Some 3%nat /\
  trace (Host.handleVoiceToggle no_throw 11%nat 12%nat on open_state_example) =
    trace (closeLiveSession no_throw open_state_example) /\
  trace (Host.handleVoiceToggle no_throw 11%nat 12%nat off open_state_example) =
    [getAi; live_connect] /\
  liveSession (final (Host.handleVoiceToggle no_throw 11%nat 12%nat off
                        open_state_example)) = Some 3%nat.
Proof.
  intros on off.
  destruct (connectLive_has_no_session_guard no_throw 11%nat 12%nat open_state_example)
    as (_ & _ & _ & _ & Hs & _ & _ & _ & _ & _ & Hon & Hoff).
  destruct (Hon on eq_refl) as (Ht & _).
  destruct (Hoff off eq_refl) as (Ht' & _ & Hl & _).
  split; [reflexivity|]. split; [reflexivity|]. split; [exact Hs|].
  split; [exact Ht|]. split; [|exact Hl].
  etrans; [exact Ht'|]. reflexivity.
Defined.

(** C4 as stated fails on the code: [connectLive] on a module with an open
    session returns normally, replaces both audio contexts (the old ones are
    not closed) and connects again; when the second session opens, the
    handle of the first is overwritten and the first is never closed.  The
    host does not prevent it: after a transport error has cleared the host's
    flag, the next press of the voice button connects again, and the second
    session opens while the first session, its capture track and its
    contexts were never released. *)
Lemma connectLive_counterexample :
  let r := connectLive no_throw 11%nat 12%nat open_state_example in
  liveSession open_state_example = Some 3%nat /\
  result r = Normal tt /\
  trace r = [getAi; live_connect] /\
  final r <> open_state_example /\
  inputAudioContext (final r) = Some 11%nat /\
  outputAudioContext (final r) = Some 12%nat /\
  (let r' := onopen no_throw 13%nat {| getTracks := [14%nat] |} 15%nat (final r) in
   liveSession (final r') = Some 13%nat /\
   trace r' = [getUserMedia; cb_onOpen]) /\
  let w := System.run no_throw
             [System.press_voice_button 1%nat 2%nat;
              System.platform (ev_open 3%nat {| getTracks := [4%nat] |} 5%nat);
              System.platform (ev_error "socket closed");
              System.press_voice_button 11%nat 12%nat;
              System.platform (ev_open 13%nat {| getTracks := [14%nat] |} 15%nat)]
             System.initial_world in
  w.2 = [getAi; live_connect; getUserMedia; cb_onOpen; cb_onError "socket closed";
         getAi; live_connect; getUserMedia; cb_onOpen] /\
  liveSession (System.service w.1) = Some 13%nat /\
  Host.isVoiceSessionActive (System.host w.1) = true /\
  Forall (fun e => e ∉ w.2)
    [session_close 3%nat; track_stop 4%nat; processor_disconnect 5%nat;
     context_close 1%nat; context_close 2%nat].
Proof.
  cbn. repeat split; try done.
  repeat constructor; intros Hin;
    repeat (apply elem_of_cons in Hin as [Hin|Hin]; [done|]);
    by apply elem_of_nil in Hin.
Qed.

(** ** Inbound messages *)

(** C9: a message without an audio payload reaches the host's [onMessage]
    and changes no module variable: the cursor and [sources] are as before,
    and the callback is the only call made. *)
Theorem message_without_audio_changes_nothing (throws : Effect -> bool)
    (message : LiveServerMessage) (p : Playback) (s : State) :
  audio_payload message = None ->
  let r := onmessage throws message p s in
  trace r = [cb_onMessage message] /\
  final r = s /\
  nextStartTime (final r) = nextStartTime s /\
  sources (final r) = sources s.
Proof.
  unfold audio_payload, onmessage. intros Hno. unfold_run. unfold call. cbn.
  destruct (throws (cb_onMessage message)); cbn; [done|].
  destruct (base64Audio_of message) as [v|x]; cbn; [|done].
  rewrite Hno. done.
Qed.

Lemma message_without_audio_changes_nothing_witness :
  let turn_complete := {| serverContent := Some {| modelTurn := None |} |} in
  let p := {| currentTime := 9%Q; duration := 1%Q; sourceNode := 20%nat |} in
  audio_payload turn_complete = None /\
  trace (onmessage no_throw turn_complete p open_state_example) =
    [cb_onMessage turn_complete] /\
  final (onmessage no_throw turn_complete p open_state_example) = open_state_example.
Proof.
  intros turn_complete p.
  assert (audio_payload turn_complete = None) as H by reflexivity.
  destruct (message_without_audio_changes_nothing no_throw turn_complete p
              open_state_example H) as (Ht & Hf & _).
  split; [exact H|]. split; [exact Ht|exact Hf].
Defined.

(** ** Outbound frames *)

(** With no session handle, a handler other than the one that opens a
    session leaves the handle unset and sends nothing. *)
Lemma handle_keeps_closed (throws : Effect -> bool) (ev : Event) (s : State) :
  is_open_event ev = false ->
  liveSession s = None ->
  liveSession (final (handle throws ev s)) = None /\
  Forall (fun e => is_send e = false) (trace (handle throws ev s)).
Proof.
  intros Hev Hs. destruct ev; try discriminate; cbn [handle].
  - rewrite connectLive_run. destruct (throws getAi); cbn; split;
      try done; repeat constructor.
  - unfold onaudioprocess. unfold_run. rewrite Hs. cbn. split; [done|constructor].
  - unfold onmessage, schedule_before_await, schedule_after_await.
    unfold_run. unfold call. cbn.
    repeat (case_match; cbn); split; try done; repeat constructor.
  - unfold onmessage_begin, schedule_before_await.
    unfold_run. unfold call. cbn.
    repeat (case_match; cbn); split; try done; repeat constructor.
  - unfold onmessage_resume, schedule_after_await.
    unfold_run. unfold call. cbn.
    repeat (case_match; cbn); split; try done; repeat constructor.
  - cbn. split; [done|constructor].
  - cbn. split; [done|repeat constructor].
  - cbn. split; [done|repeat constructor].
  - split.
    + rewrite closeLiveSession_run.
      destruct (first_throw throws (session_release s)) as [[]|]; [|done].
      by destruct (first_throw throws (device_releases s)) as [[]|].
    + destruct (closeLiveSession_trace throws s) as [-> _].
      apply attempted_Forall, releases_not_sends.
Qed.

Lemma run_events_keeps_closed (throws : Effect -> bool) (evs : list Event) (s : State) :
  Forall (fun ev => is_open_event ev = false) evs ->
  liveSession s = None ->
  liveSession (run_events throws evs s).1 = None /\
  Forall (fun e => is_send e = false) (run_events throws evs s).2.
Proof.
  intros Hevs. revert s. induction Hevs as [|ev evs Hev _ IH]; intros s Hs.
  - cbn. split; [done|constructor].
  - cbn [run_events].
    destruct (handle_keeps_closed throws ev s Hev Hs) as [Hs' Ht].
    destruct (IH _ Hs') as [IH1 IH2].
    destruct (run_events throws evs (final (handle throws ev s))) as [s' t].
    cbn in *. split; [done|]. by apply Forall_app_2.
Qed.

(** C10, as the code has it: once [closeLiveSession] has returned, the
    session handle is unset, an audio-processing callback sends nothing, and
    this stays so through every later event (capture callbacks, messages,
    ended nodes, transport close and error, further calls of [connectLive]
    and [closeLiveSession]) for as long as no session opens.
    [closeLiveSession] does not cancel a connection that is under way: when
    its session opens afterwards, the handle is stored again and the next
    audio-processing callback sends its frame to it. *)
Theorem no_frame_sent_after_close (throws : Effect -> bool) (s : State)
    (evs : list Event) :
  result (closeLiveSession throws s) = Normal tt ->
  Forall (fun ev => is_open_event ev = false) evs ->
  let closed := final (closeLiveSession throws s) in
  liveSession closed = None /\
  (forall inputData, trace (onaudioprocess throws inputData closed) = []) /\
  liveSession (run_events throws evs closed).1 = None /\
  Forall (fun e => is_send e = false) (run_events throws evs closed).2 /\
  (forall session stream processor inputData,
     let later := (run_events throws evs closed).1 in
     let reopened := final (onopen throws session stream processor later) in
     liveSession reopened = Some session /\
     trace (onaudioprocess throws inputData reopened) =
       [sendRealtimeInput session (Encoder.pcm_frame inputData)]).
Proof.
  intros Hn Hevs closed.
  assert (liveSession closed = None) as Hc.
  { subst closed. revert Hn. rewrite closeLiveSession_run.
    destruct (first_throw throws (session_release s)) as [[]|]; [|done].
    by destruct (first_throw throws (device_releases s)) as [[]|]. }
  split; [done|]. split; [|split; [|split]].
  - intros inputData. unfold onaudioprocess. unfold_run. by rewrite Hc.
  - by apply run_events_keeps_closed.
  - by apply run_events_keeps_closed.
  - intros session stream processor inputData later reopened.
    assert (liveSession reopened = Some session) as Hre.
    { subst reopened. unfold onopen. unfold_run. unfold call. cbn.
      by destruct (throws getUserMedia). }
    split; [done|]. unfold onaudioprocess. unfold_run. by rewrite Hre.
Qed.

Lemma no_frame_sent_after_close_witness :
  let evs := [ev_audioprocess [(1 # 2)%Q; (-1 # 4)%Q]; ev_close;
              ev_audioprocess [(1 # 8)%Q]] in
  let closed := final (closeLiveSession no_throw open_state_example) in
  result (closeLiveSession no_throw open_state_example) = Normal tt /\
  Forall (fun ev => is_open_event ev = false) evs /\
  Forall (fun e => is_send e = false) (run_events no_throw evs closed).2 /\
  (run_events no_throw evs closed).2 = [cb_onClose] /\
  trace (onaudioprocess no_throw [(1 # 2)%Q] open_state_example) =
    [sendRealtimeInput 3%nat [0; 64]] /\
  trace (onaudioprocess no_throw [(1 # 2)%Q]
           (final (onopen no_throw 13%nat {| getTracks := [14%nat] |} 15%nat
                     (run_events no_throw evs closed).1))) =
    [sendRealtimeInput 13%nat [0; 64]].
Proof.
  intros evs closed.
  assert (result (closeLiveSession no_throw open_state_example) = Normal tt) as Hn
    by (vm_compute; reflexivity).
  assert (Forall (fun ev => is_open_event ev = false) evs) as Hevs
    by (repeat constructor).
  destruct (no_frame_sent_after_close no_throw open_state_example evs Hn Hevs)
    as (_ & _ & _ & Hsend & Hopen).
  destruct (Hopen 13%nat {| getTracks := [14%nat] |} 15%nat [(1 # 2)%Q]) as [_ Hre].
  split; [exact Hn|]. split; [exact Hevs|]. split; [exact Hsend|].
  split; [vm_compute; reflexivity|]. split; [vm_compute; reflexivity|].
  etrans; [exact Hre|]. vm_compute. reflexivity.
Defined.

(** C10 as stated fails on the code: [closeLiveSession] called while the
    connection is still being set up returns, and when the session then
    opens, its handle is stored and the next audio-processing callback sends
    a frame. *)
Lemma no_frame_sent_after_close_counterexample :
  let connecting := final (connectLive no_throw 1%nat 2%nat initial_state) in
  let closed := closeLiveSession no_throw connecting in
  let evs := [ev_open 3%nat {| getTracks := [4%nat] |} 5%nat;
              ev_audioprocess [(1 # 2)%Q]] in
  result closed = Normal tt /\
  liveSession (final closed) = None /\
  (run_events no_throw evs (final closed)).2 =
    [getUserMedia; cb_onOpen; sendRealtimeInput 3%nat [0; 64]] /\
  (run_events no_throw
     ([ev_connectLive 1%nat 2%nat; ev_closeLiveSession] ++ evs) initial_state).2 =
    [getAi; live_connect; context_close 1%nat; context_close 2%nat;
     getUserMedia; cb_onOpen; sendRealtimeInput 3%nat [0; 64]] /\
  Exists (fun e => is_send e = true) (run_events no_throw evs (final closed)).2.
Proof.
  intros connecting closed evs. subst connecting closed evs.
  rewrite closeLiveSession_run. vm_compute.
  repeat split; try done. do 2 apply Exists_cons_tl. by apply Exists_cons_hd.
Qed.

(** ** The playback scheduler *)

(** [onmessage] up to the [await], run: the callback, the payload, the
    catch-up of the cursor and the call of the decoder. *)
Lemma onmessage_begin_run (throws : Effect -> bool) (message : LiveServerMessage)
    (p : Playback) (s : State) :
  onmessage_begin throws message p s =
    if throws (cb_onMessage message) then
      {| result := Throw (Thrown (cb_onMessage message)); final := s;
         trace := [cb_onMessage message] |}
    else
      match base64Audio_of message with
      | Throw x =>
          {| result := Throw x; final := s; trace := [cb_onMessage message] |}
      | Normal v =>
          match truthy v with
          | None =>
              {| result := Normal tt; final := s; trace := [cb_onMessage message] |}
          | Some b =>
              {| result := if throws (decodeAudioData b)
                           then Throw (Thrown (decodeAudioData b)) else Normal tt;
                 final := set_nextStartTime (Qmax (nextStartTime s) (currentTime p)) s;
                 trace := [cb_onMessage message; decodeAudioData b] |}
          end
      end.
Proof.
  unfold onmessage_begin, mbind, M_bind.
  erewrite bind_calls by apply call_run. cbn [first_throw attempted].
  destruct (throws (cb_onMessage message)); [done|].
  rewrite bind_lift. destruct (base64Audio_of message) as [v|x]; [|done].
  destruct (truthy v) as [b|]; [|done].
  unfold schedule_before_await, mbind, M_bind. rewrite bind_modify.
  unfold after, call. cbn. done.
Qed.

(** [onmessage] after the [await], run: the node is started at the value
    the cursor has now; unless [start] raises, the cursor advances by the
    rounded sum and the node is added to [sources]. *)
Lemma onmessage_resume_run (throws : Effect -> bool) (p : Playback) (s : State) :
  onmessage_resume throws p s =
    let start := source_start (sourceNode p) (duration p) (nextStartTime s) in
    if throws start then
      {| result := Throw (Thrown start); final := s; trace := [start] |}
    else
      {| result := Normal tt;
         final := set_sources (Set_add (sourceNode p) (sources s))
                    (set_nextStartTime
                       (Binary64.fadd (nextStartTime s) (duration p)) s);
         trace := [start] |}.
Proof.
  unfold onmessage_resume, schedule_after_await, mbind, M_bind.
  rewrite bind_get. erewrite bind_calls by apply call_run.
  cbn [first_throw attempted]. cbv zeta.
  destruct (throws (source_start _ _ _)); [done|].
  rewrite bind_modify. unfold after, modify. cbn. done.
Qed.

(** [onmessage], run without another handler during the [await]: the
    callback, the payload, the catch-up of the cursor, the decoding, the
    start of the node at the cursor, the advance of the cursor and the
    registration of the node, with every place an exception can end the
    handler. *)
Lemma onmessage_run (throws : Effect -> bool) (message : LiveServerMessage)
    (p : Playback) (s : State) :
  onmessage throws message p s =
    if throws (cb_onMessage message) then
      {| result := Throw (Thrown (cb_onMessage message)); final := s;
         trace := [cb_onMessage message] |}
    else
      match base64Audio_of message with
      | Throw x =>
          {| result := Throw x; final := s; trace := [cb_onMessage message] |}
      | Normal v =>
          match truthy v with
          | None =>
              {| result := Normal tt; final := s; trace := [cb_onMessage message] |}
          | Some b =>
              let startAt := Qmax (nextStartTime s) (currentTime p) in
              let s1 := set_nextStartTime startAt s in
              let start := source_start (sourceNode p) (duration p) startAt in
              if throws (decodeAudioData b) then
                {| result := Throw (Thrown (decodeAudioData b)); final := s1;
                   trace := [cb_onMessage message; decodeAudioData b] |}
              else if throws start then
                {| result := Throw (Thrown start); final := s1;
                   trace := [cb_onMessage message; decodeAudioData b; start] |}
              else
                {| result := Normal tt;
                   final := set_sources (Set_add (sourceNode p) (sources s))
                              (set_nextStartTime
                                 (Binary64.fadd startAt (duration p)) s1);
                   trace := [cb_onMessage message; decodeAudioData b; start] |}
          end
      end.
Proof.
  unfold onmessage, mbind, M_bind.
  erewrite bind_calls by apply call_run. cbn [first_throw attempted].
  destruct (throws (cb_onMessage message)); [done|].
  rewrite bind_lift. destruct (base64Audio_of message) as [v|x]; [|done].
  destruct (truthy v) as [b|]; [|done].
  unfold schedule_before_await, schedule_after_await, mbind, M_bind.
  unfold bind at 1. rewrite bind_modify.
  rewrite call_run. unfold perform. cbn [result final trace first_throw attempted].
  destruct (throws (decodeAudioData b)); [done|].
  rewrite bind_get.
  erewrite bind_calls by apply call_run. cbn [first_throw attempted].
  cbn [nextStartTime set_nextStartTime].
  destruct (throws (source_start _ _ _)); [done|].
  rewrite bind_modify. unfold after, modify. cbn. done.
Qed.











(** *** Segments laid end to end *)

Lemma schedule_app (t1 t2 : list Effect) :
  schedule (t1 ++ t2) = schedule t1 ++ schedule t2.
Proof. apply omap_app. Qed.











(** * Further properties of the code *)

(** ** The frame encoder *)

Section EncoderMore.
Import Encoder.

Lemma ToInt16_range (v : Q) : int16_range (ToInt16 v).
Proof.
  unfold int16_range, ToInt16.
  pose proof (Z.mod_pos_bound (js_trunc v) 65536).
  destruct (Z.leb_spec 32768 (js_trunc v mod 65536)); lia.
Qed.

Lemma int16_samples_range (inputData : list Q) :
  Forall int16_range (int16_samples inputData).
Proof.
  rewrite int16_samples_map. apply Forall_fmap, Forall_true.
  intros x. apply ToInt16_range.
Qed.

(** X2: whatever the samples are (out of range included), every slot holds
    a signed 16-bit value, every byte of the frame is a byte, and the two
    bytes of a slot, the low one first, make up the slot's value modulo
    [2^16]. *)
Theorem frame_bytes_hold_the_slots (inputData : list Q) :
  Forall int16_range (int16_samples inputData) /\
  Forall (fun b => 0 <= b <= 255) (pcm_frame inputData) /\
  forall (i : nat) (v : Z), int16_samples inputData !! i = Some v ->
    exists lo hi,
      pcm_frame inputData !! (2 * i)%nat = Some lo /\
      pcm_frame inputData !! (2 * i + 1)%nat = Some hi /\
      lo + 256 * hi = v mod 65536.
Proof.
  pose proof (int16_samples_range inputData) as Hr.
  split; [done|]. split.
  - unfold pcm_frame, Uint8Array_of_int16.
    induction (int16_samples inputData) as [|v vs IH]; [constructor|].
    cbn [flat_map]. rewrite int16_bytes_le.
    apply Forall_cons in Hr as [_ Hr].
    pose proof (Z.mod_pos_bound v 256).
    pose proof (Z.mod_pos_bound (v / 256) 256).
    cbn [app]. apply Forall_cons; split; [lia|].
    apply Forall_cons; split; [lia|]. by apply IH.
  - intros i v Hv. destruct (Uint8Array_lookup _ _ _ Hv) as [Hlo Hhi].
    exists (v mod 256), ((v / 256) mod 256).
    split; [exact Hlo|]. split; [exact Hhi|]. Z.div_mod_to_equations. lia.
Qed.

Lemma frame_bytes_hold_the_slots_witness :
  int16_samples [(5 # 4)%Q] !! 0%nat = Some (-24576) /\
  pcm_frame [(5 # 4)%Q] = [0; 160] /\
  0 + 256 * 160 = (-24576) mod 65536.
Proof.
  destruct (frame_bytes_hold_the_slots [(5 # 4)%Q]) as (_ & _ & H).
  destruct (H 0%nat (-24576) eq_refl) as (lo & hi & Hlo & Hhi & Hv).
  split; [reflexivity|]. split; reflexivity.
Defined.

(** X3: consecutive chunks encode independently: the frame of two chunks
    put together is the two frames put together. *)
Theorem frames_concatenate (chunk1 chunk2 : list Q) :
  pcm_frame (chunk1 ++ chunk2) = pcm_frame chunk1 ++ pcm_frame chunk2.
Proof.
  unfold pcm_frame, Uint8Array_of_int16.
  rewrite !int16_samples_map, fmap_app. apply flat_map_app.
Qed.

Lemma js_trunc_opp (v : Q) : js_trunc (- v) = - js_trunc v.
Proof.
  unfold js_trunc. destruct v as [n d]. simpl. apply Z.quot_opp_l. done.
Qed.

(** X4: strictly inside the range the conversion is odd: a sample and its
    negation are stored as opposite values (truncation is toward zero, not
    downward). *)
Theorem negated_sample_is_stored_negated (x : Q) :
  (-1 < x)%Q -> (x < 1)%Q ->
  int16_of_sample (- x) = - int16_of_sample x.
Proof.
  intros Hlo Hhi.
  rewrite !int16_of_sample_trunc.
  - rewrite <- js_trunc_opp. unfold js_trunc.
    destruct x as [n d]. simpl. f_equal. lia.
  - split; [by apply Qlt_le_weak | done].
  - split; [|]; lra.
Qed.

Lemma negated_sample_is_stored_negated_witness :
  (-1 < 7 # 10)%Q /\ (7 # 10 < 1)%Q /\
  int16_of_sample (- (7 # 10)) = -22937 /\ int16_of_sample (7 # 10) = 22937.
Proof.
  pose proof (negated_sample_is_stored_negated (7 # 10)%Q eq_refl eq_refl) as H.
  split; [reflexivity|]. split; [reflexivity|].
  split; [|reflexivity]. etrans; [exact H|]. reflexivity.
Defined.

Lemma js_trunc_floor (v : Q) : (0 <= v)%Q -> js_trunc v = Qfloor v.
Proof.
  destruct v as [n d]. unfold Qle, js_trunc, Qfloor. simpl. intros H.
  apply Z.quot_div_nonneg; lia.
Qed.

Lemma js_trunc_ceiling (v : Q) : (v <= 0)%Q -> js_trunc v = Qceiling v.
Proof.
  intros H. unfold Qceiling. rewrite <- js_trunc_floor by lra.
  rewrite js_trunc_opp. lia.
Qed.

(** Truncation toward zero keeps the order of the numbers. *)
Lemma js_trunc_le (v w : Q) : (v <= w)%Q -> js_trunc v <= js_trunc w.
Proof.
  intros H. destruct (Qlt_le_dec v 0) as [Hv|Hv], (Qlt_le_dec w 0) as [Hw|Hw].
  - rewrite !js_trunc_ceiling by lra. by apply Qceiling_resp_le.
  - rewrite js_trunc_ceiling by lra. rewrite (js_trunc_floor w) by done.
    transitivity 0.
    + assert (Qceiling v <= Qceiling 0) by (apply Qceiling_resp_le; lra). done.
    + assert (Qfloor 0 <= Qfloor w) by (by apply Qfloor_resp_le). done.
  - lra.
  - rewrite !js_trunc_floor by lra. by apply Qfloor_resp_le.
Qed.

(** X1: below full scale the stored value is the scaled sample cut toward
    zero: it differs from [sample * 32768] by less than one unit and lies
    between zero and the scaled sample. *)
Theorem stored_value_is_within_one_unit (x : Q) :
  below_full_scale x ->
  let v := inject_Z (int16_of_sample x) in
  (Qabs (x * 32768 - v) < 1)%Q /\
  ((0 <= x)%Q -> (0 <= v)%Q /\ (v <= x * 32768)%Q) /\
  ((x <= 0)%Q -> (x * 32768 <= v)%Q /\ (v <= 0)%Q).
Proof.
  intros Hx v. subst v. rewrite int16_of_sample_trunc by done.
  set (q := (x * 32768)%Q).
  assert ((0 <= q)%Q -> (0 <= inject_Z (js_trunc q))%Q /\
                        (inject_Z (js_trunc q) <= q)%Q /\
                        (q < inject_Z (js_trunc q) + 1)%Q) as Hpos.
  { intros Hq. rewrite js_trunc_floor by done. split; [|split].
    - change 0%Q with (inject_Z 0). rewrite <- Zle_Qle.
      change 0 with (Qfloor 0). by apply Qfloor_resp_le.
    - apply Qfloor_le.
    - pose proof (Qlt_floor q) as H. rewrite inject_Z_plus in H. exact H. }
  assert ((q <= 0)%Q -> (inject_Z (js_trunc q) <= 0)%Q /\
                        (q <= inject_Z (js_trunc q))%Q /\
                        (inject_Z (js_trunc q) - 1 < q)%Q) as Hneg.
  { intros Hq. rewrite js_trunc_ceiling by done. split; [|split].
    - change 0%Q with (inject_Z 0). rewrite <- Zle_Qle.
      change 0 with (Qceiling 0). by apply Qceiling_resp_le.
    - apply Qle_ceiling.
    - pose proof (Qceiling_lt q) as H. unfold Z.sub in H.
      rewrite inject_Z_plus in H. exact H. }
  split; [|split].
  - apply Qabs_Qlt_condition. destruct (Qlt_le_dec q 0) as [Hq|Hq].
    + destruct Hneg as (? & ? & ?); [lra|]. split; lra.
    + destruct (Hpos Hq) as (? & ? & ?). split; lra.
  - intros H0. destruct Hpos as (? & ? & ?); [subst q; lra|]. done.
  - intros H0. destruct Hneg as (? & ? & ?); [subst q; lra|]. done.
Qed.

Lemma stored_value_is_within_one_unit_witness :
  below_full_scale (-7 # 10)%Q /\
  int16_of_sample (-7 # 10) = -22937 /\
  (Qabs ((-7 # 10) * 32768 - inject_Z (int16_of_sample (-7 # 10))) < 1)%Q.
Proof.
  assert (below_full_scale (-7 # 10)%Q) as Hx by (split; [discriminate|reflexivity]).
  destruct (stored_value_is_within_one_unit _ Hx) as [H _].
  split; [exact Hx|]. split; [reflexivity|exact H].
Defined.

(** X5: below full scale the conversion keeps the order of the samples: a
    louder sample is never stored as a smaller value. *)
Theorem stored_values_keep_the_order (x y : Q) :
  below_full_scale x -> below_full_scale y -> (x <= y)%Q ->
  int16_of_sample x <= int16_of_sample y.
Proof.
  intros Hx Hy Hle. rewrite !int16_of_sample_trunc by done.
  apply js_trunc_le. lra.
Qed.

Lemma stored_values_keep_the_order_witness :
  below_full_scale (-1 # 3)%Q /\ below_full_scale (1 # 5)%Q /\
  (-1 # 3 <= 1 # 5)%Q /\ int16_of_sample (-1 # 3) <= int16_of_sample (1 # 5).
Proof.
  assert (below_full_scale (-1 # 3)%Q) as H1 by (split; [discriminate|reflexivity]).
  assert (below_full_scale (1 # 5)%Q) as H2 by (split; [discriminate|reflexivity]).
  assert (-1 # 3 <= 1 # 5)%Q as H3 by discriminate.
  split; [exact H1|]. split; [exact H2|]. split; [exact H3|].
  exact (stored_values_keep_the_order _ _ H1 H2 H3).
Defined.

(** X6: from full scale up to twice full scale the stored value has the
    wrong sign: a sample in [1.0, 2.0) is stored as its scaled truncation
    minus 65536, a negative value. *)
Theorem over_range_sample_changes_sign (x : Q) :
  (1 <= x)%Q -> (x < 2)%Q ->
  int16_of_sample x = js_trunc (x * 32768)%Q - 65536 /\
  -32768 <= int16_of_sample x <= -1.
Proof.
  intros Hlo Hhi.
  assert (32768 <= js_trunc (x * 32768)%Q < 65536) as Hk.
  { unfold js_trunc. destruct x as [n d]. unfold Qle, Qlt in *. simpl in *.
    rewrite Pos.mul_1_r. rewrite Z.quot_div_nonneg by lia. split.
    - apply Z.div_le_lower_bound; lia.
    - apply Z.div_lt_upper_bound; lia. }
  unfold int16_of_sample, ToInt16.
  rewrite Z.mod_small by lia.
  destruct (Z.leb_spec 32768 (js_trunc (x * 32768)%Q)); lia.
Qed.

Lemma over_range_sample_changes_sign_witness :
  (1 <= 5 # 4)%Q /\ (5 # 4 < 2)%Q /\ int16_of_sample (5 # 4) = -24576.
Proof.
  destruct (over_range_sample_changes_sign (5 # 4)%Q) as [H _];
    [discriminate | reflexivity |].
  split; [discriminate|]. split; [reflexivity|].
  etrans; [exact H|]. reflexivity.
Defined.

End EncoderMore.

(** ** The handlers of the live session *)

Section HandlerRuns.
Variable throws : Effect -> bool.

Lemma onaudioprocess_run (inputData : list Q) (s : State) :
  onaudioprocess throws inputData s =
    match liveSession s with
    | Some h => call throws (sendRealtimeInput h (Encoder.pcm_frame inputData)) s
    | None => {| result := Normal tt; final := s; trace := [] |}
    end.
Proof.
  unfold onaudioprocess, mbind, M_bind. cbv zeta. rewrite bind_get.
  by destruct (liveSession s).
Qed.

Lemma onopen_run (session : Session) (stream : MediaStream)
    (processor : ScriptProcessorNode) (s : State) :
  onopen throws session stream processor s =
    if throws getUserMedia then
      {| result := Throw (Thrown getUserMedia);
         final := set_liveSession (Some session) s; trace := [getUserMedia] |}
    else
      {| result := if throws cb_onOpen then Throw (Thrown cb_onOpen) else Normal tt;
         final := set_scriptProcessor processor
                    (set_mediaStream stream (set_liveSession (Some session) s));
         trace := [getUserMedia; cb_onOpen] |}.
Proof.
  unfold onopen, mbind, M_bind. rewrite bind_modify.
  erewrite bind_calls by apply call_run. cbn [first_throw attempted].
  destruct (throws getUserMedia); [done|].
  rewrite !bind_modify. unfold after, call. cbn. done.
Qed.

(** The variables [closeLiveSession] can leave: all as they were, only the
    handle cleared, or everything cleared. *)
Lemma closeLiveSession_final (s : State) :
  final (closeLiveSession throws s) = s \/
  final (closeLiveSession throws s) = set_liveSession None s \/
  final (closeLiveSession throws s) = torn_down s.
Proof.
  rewrite closeLiveSession_run.
  destruct (first_throw throws (session_release s)) as [[]|]; [|by left].
  destruct (first_throw throws (device_releases s)) as [[]|]; cbn; auto.
Qed.

Lemma attempted_elem_of (e : Effect) (es : list Effect) :
  e ∈ attempted throws es -> e ∈ es.
Proof.
  intros He.
  assert (Forall (fun x => x ∈ es) (attempted throws es)) as H.
  { apply attempted_Forall. apply Forall_forall. auto. }
  rewrite Forall_forall in H. by apply H.
Qed.

Lemma closeLiveSession_trace_elem_of (e : Effect) (s : State) :
  e ∈ trace (closeLiveSession throws s) -> e ∈ releases s.
Proof.
  destruct (closeLiveSession_trace throws s) as [-> _]. apply attempted_elem_of.
Qed.

End HandlerRuns.

Lemma releases_not_starts (s : State) :
  Forall (fun e => start_of e = None) (releases s).
Proof.
  unfold releases, session_release, device_releases.
  repeat apply Forall_app_2; repeat case_match;
    try (apply Forall_fmap, Forall_true; done);
    repeat constructor.
Qed.

Lemma releases_not_decoding (s : State) :
  Forall (fun e => forall b, e <> decodeAudioData b) (releases s).
Proof.
  unfold releases, session_release, device_releases.
  repeat apply Forall_app_2; repeat case_match;
    try (apply Forall_fmap, Forall_true; done);
    repeat constructor; done.
Qed.

Lemma schedule_nil (t : list Effect) :
  Forall (fun e => start_of e = None) t -> schedule t = [].
Proof.
  unfold schedule. induction 1 as [|e t He _ IH]; [done|].
  cbn. by rewrite He.
Qed.

Lemma closeLiveSession_schedule (throws : Effect -> bool) (s : State) :
  schedule (trace (closeLiveSession throws s)) = [].
Proof.
  destruct (closeLiveSession_trace throws s) as [-> _].
  apply schedule_nil, attempted_Forall, releases_not_starts.
Qed.

(** X7: while a session is open, capture chunks are sent one frame each, in
    capture order, all to the session in [liveSession], each frame holding
    two bytes per sample; capturing changes no module variable. *)
Theorem frames_are_sent_in_capture_order (throws : Effect -> bool) (s : State)
    (h : Session) (chunks : list (list Q)) :
  liveSession s = Some h ->
  run_events throws (ev_audioprocess <$> chunks) s =
    (s, (fun c => sendRealtimeInput h (Encoder.pcm_frame c)) <$> chunks) /\
  Forall2 (fun c e => exists pcm, e = sendRealtimeInput h pcm /\
                                  length pcm = (2 * length c)%nat)
    chunks (run_events throws (ev_audioprocess <$> chunks) s).2.
Proof.
  intros Hs.
  assert (run_events throws (ev_audioprocess <$> chunks) s =
          (s, (fun c => sendRealtimeInput h (Encoder.pcm_frame c)) <$> chunks)) as Hrun.
  { induction chunks as [|c chunks IH]; [done|].
    cbn [fmap list_fmap run_events handle].
    rewrite onaudioprocess_run, Hs. cbn [call final trace].
    fold (fmap (M:=list) ev_audioprocess chunks). rewrite IH. done. }
  split; [exact Hrun|]. rewrite Hrun. cbn [snd].
  apply Forall2_fmap_r, Forall_Forall2_diag, Forall_true.
  intros c. eexists. split; [done|]. apply pcm_frame_length.
Qed.

Lemma frames_are_sent_in_capture_order_witness :
  liveSession open_state_example = Some 3%nat /\
  (run_events no_throw (ev_audioprocess <$> [[(1 # 2)%Q]; [(-1 # 2)%Q; 0%Q]])
     open_state_example).2 =
    [sendRealtimeInput 3%nat [0; 64]; sendRealtimeInput 3%nat [0; 192; 0; 0]].
Proof.
  destruct (frames_are_sent_in_capture_order no_throw open_state_example 3%nat
              [[(1 # 2)%Q]; [(-1 # 2)%Q; 0%Q]] eq_refl) as [H _].
  split; [reflexivity|]. rewrite H. reflexivity.
Defined.

(** X8: the continuation of [onopen] stores the session handle before it
    asks for the microphone.  If [getUserMedia] raises, the handle stays
    stored, no capture stream or processor is set and the host gets neither
    [onOpen] nor [onError]; otherwise the stream and the processor are
    stored and [onOpen] is the last thing called. *)
Theorem onopen_stores_the_handle_first (throws : Effect -> bool) (session : Session)
    (stream : MediaStream) (processor : ScriptProcessorNode) (s : State) :
  let r := onopen throws session stream processor s in
  liveSession (final r) = Some session /\
  (throws getUserMedia = true ->
     result r = Throw (Thrown getUserMedia) /\
     mediaStream (final r) = mediaStream s /\
     scriptProcessor (final r) = scriptProcessor s /\
     Forall (fun e => is_host_callback e = false) (trace r)) /\
  (throws getUserMedia = false ->
     trace r = [getUserMedia; cb_onOpen] /\
     mediaStream (final r) = Some stream /\
     scriptProcessor (final r) = Some processor /\
     nextStartTime (final r) = nextStartTime s /\
     sources (final r) = sources s).
Proof.
  intros r. subst r. rewrite onopen_run.
  destruct (throws getUserMedia); cbn.
  - split; [done|]. split; [|done]. intros _. repeat split; repeat constructor.
  - split; [done|]. split; [done|]. intros _. done.
Qed.

Lemma onopen_stores_the_handle_first_witness :
  let denied : Effect -> bool :=
    fun e => match e with getUserMedia => true | _ => false end in
  denied getUserMedia = true /\ no_throw getUserMedia = false /\
  final (onopen denied 3%nat {| getTracks := [4%nat] |} 5%nat initial_state) =
    set_liveSession (Some 3%nat) initial_state /\
  trace (onopen no_throw 3%nat {| getTracks := [4%nat] |} 5%nat initial_state) =
    [getUserMedia; cb_onOpen].
Proof.
  intros denied.
  destruct (onopen_stores_the_handle_first denied 3%nat {| getTracks := [4%nat] |}
              5%nat initial_state) as (_ & Hden & _).
  destruct (Hden eq_refl) as (_ & _ & _ & _).
  destruct (onopen_stores_the_handle_first no_throw 3%nat {| getTracks := [4%nat] |}
              5%nat initial_state) as (_ & _ & Hok).
  destruct (Hok eq_refl) as (Ht & _).
  split; [reflexivity|]. split; [reflexivity|]. split; [reflexivity|exact Ht].
Defined.

Lemma Set_add_fresh (n : AudioBufferSourceNode) (l : list AudioBufferSourceNode) :
  n ∉ l -> Set_add n l = l ++ [n].
Proof. intros H. unfold Set_add. by destruct (decide (n ∈ l)). Qed.

Lemma elem_of_Set_add (x n : AudioBufferSourceNode) (l : list AudioBufferSourceNode) :
  x ∈ Set_add n l <-> x ∈ l \/ x = n.
Proof.
  unfold Set_add. destruct (decide (n ∈ l)) as [Hin|Hin].
  - split; [auto|]. intros [H| ->]; done.
  - rewrite elem_of_app, list_elem_of_singleton. done.
Qed.

Lemma elem_of_Set_delete (x n : AudioBufferSourceNode) (l : list AudioBufferSourceNode) :
  x ∈ Set_delete n l <-> x ∈ l /\ x <> n.
Proof. unfold Set_delete. rewrite list_elem_of_filter. tauto. Qed.

Lemma Set_delete_last (n : AudioBufferSourceNode) (l : list AudioBufferSourceNode) :
  n ∉ l -> Set_delete n (l ++ [n]) = l.
Proof.
  intros H. unfold Set_delete. rewrite filter_app.
  rewrite filter_cons_False by (intros Hne; by apply Hne).
  rewrite filter_nil, app_nil_r.
  induction l as [|x l IH]; [done|].
  apply not_elem_of_cons in H as [Hx Hl].
  rewrite filter_cons_True by (intros ->; done). by rewrite IH.
Qed.

(** X9: a node that plays to its end leaves [sources] as it was before its
    message: the message registers the node, the ['ended'] listener removes
    exactly that node. *)
Theorem ended_node_is_unregistered (throws : Effect -> bool)
    (message : LiveServerMessage) (base64Audio : string) (p : Playback) (s : State) :
  audio_payload message = Some base64Audio ->
  throws (cb_onMessage message) = false ->
  throws (decodeAudioData base64Audio) = false ->
  (forall t, throws (source_start (sourceNode p) (duration p) t) = false) ->
  sourceNode p ∉ sources s ->
  let playing := final (onmessage throws message p s) in
  sources playing = sources s ++ [sourceNode p] /\
  sources (final (onended (sourceNode p) playing)) = sources s.
Proof.
  intros Hb Hcb Hdec Hstart Hfresh playing. subst playing.
  rewrite onmessage_run, Hcb. unfold audio_payload in Hb.
  destruct (base64Audio_of message) as [v|x]; [|done].
  rewrite Hb. cbv zeta. rewrite Hdec, Hstart. cbn.
  rewrite (Set_add_fresh _ _ Hfresh). split; [done|].
  by apply Set_delete_last.
Qed.

Lemma ended_node_is_unregistered_witness :
  let p := {| currentTime := 4%Q; duration := (1 # 2)%Q; sourceNode := 9%nat |} in
  audio_payload (audio_message "AAAA") = Some "AAAA" /\
  (9%nat ∉ sources open_state_example) /\
  sources (final (onended 9%nat
                    (final (onmessage no_throw (audio_message "AAAA") p
                              open_state_example)))) =
    sources open_state_example.
Proof.
  intros p.
  assert (9%nat ∉ sources open_state_example) as Hfresh.
  { cbn. by intros ?%list_elem_of_singleton. }
  destruct (ended_node_is_unregistered no_throw (audio_message "AAAA") "AAAA" p
              open_state_example eq_refl eq_refl eq_refl (fun _ => eq_refl) Hfresh)
    as [_ H].
  split; [reflexivity|]. split; [exact Hfresh|exact H].
Defined.

Import LiveAux.

Lemma started_nodes_app (throws : Effect -> bool) (t1 t2 : list Effect) :
  started_nodes throws (t1 ++ t2) = started_nodes throws t1 ++ started_nodes throws t2.
Proof. apply omap_app. Qed.

(** One handler: a node in [sources] afterwards was there before or was
    started by the handler, its [start] call having returned. *)
Lemma handle_sources (throws : Effect -> bool) (ev : Event) (s : State)
    (n : AudioBufferSourceNode) :
  n ∈ sources (final (handle throws ev s)) ->
  n ∈ sources s \/ n ∈ started_nodes throws (trace (handle throws ev s)).
Proof.
  destruct ev; cbn [handle].
  - rewrite connectLive_run. destruct (throws getAi); cbn; auto.
  - rewrite onopen_run. destruct (throws getUserMedia); cbn; auto.
  - rewrite onaudioprocess_run. destruct (liveSession s); cbn; auto.
  - rewrite onmessage_run. cbv zeta.
    destruct (throws (cb_onMessage message)); [cbn; auto|].
    destruct (base64Audio_of message) as [v|x]; [|cbn; auto].
    destruct (truthy v) as [b|]; [|cbn; auto].
    destruct (throws (decodeAudioData b)); [cbn; auto|].
    destruct (throws (source_start _ _ _)) eqn:Hst; [cbn; auto|].
    cbn. rewrite Hst. rewrite elem_of_Set_add, list_elem_of_singleton. done.
  - rewrite onmessage_begin_run.
    destruct (throws (cb_onMessage message)); [cbn; auto|].
    destruct (base64Audio_of message) as [v|x]; [|cbn; auto].
    destruct (truthy v) as [b|]; cbn; auto.
  - rewrite onmessage_resume_run. cbv zeta.
    destruct (throws (source_start _ _ _)) eqn:Hst; [cbn; auto|].
    cbn. rewrite Hst. rewrite elem_of_Set_add, list_elem_of_singleton. done.
  - cbn. rewrite elem_of_Set_delete. intros [H _]. by left.
  - cbn. auto.
  - cbn. auto.
  - destruct (closeLiveSession_final throws s) as [->| [->| ->]]; cbn; auto.
    by intros ?%elem_of_nil.
Qed.

(** X10: through any run of events, whatever raises, every node found in
    [sources] was there at the beginning or had [start] called on it, the
    call having returned: teardown never stops a node that was not
    started. *)
Theorem registered_nodes_were_started (throws : Effect -> bool) (evs : list Event)
    (s : State) (n : AudioBufferSourceNode) :
  n ∈ sources (run_events throws evs s).1 ->
  n ∈ sources s \/ n ∈ started_nodes throws (run_events throws evs s).2.
Proof.
  revert s. induction evs as [|ev evs IH]; intros s; [cbn; auto|].
  cbn [run_events]. specialize (IH (final (handle throws ev s))).
  destruct (run_events throws evs (final (handle throws ev s))) as [s' t].
  cbn [fst snd] in *. rewrite started_nodes_app. intros Hn.
  destruct (IH Hn) as [H|H].
  - apply handle_sources in H as [H|H]; [by left|].
    right. apply elem_of_app. by left.
  - right. apply elem_of_app. by right.
Qed.

Lemma registered_nodes_were_started_witness :
  let p := {| currentTime := 4%Q; duration := (1 # 2)%Q; sourceNode := 9%nat |} in
  let evs := [ev_message (audio_message "AAAA") p; ev_ended 7%nat] in
  (9%nat ∈ sources (run_events no_throw evs open_state_example).1) /\
  (9%nat ∈ sources open_state_example \/
   9%nat ∈ started_nodes no_throw (run_events no_throw evs open_state_example).2).
Proof.
  intros p evs.
  assert (9%nat ∈ sources (run_events no_throw evs open_state_example).1) as Hin.
  { vm_compute. apply list_elem_of_singleton. done. }
  split; [exact Hin|].
  exact (registered_nodes_were_started no_throw evs open_state_example 9%nat Hin).
Defined.

(** One handler keeps the cursor at or above zero and starts nothing at a
    negative time. *)
Lemma handle_cursor_nonneg (throws : Effect -> bool) (ev : Event) (s : State) :
  (0 <= nextStartTime s)%Q ->
  (0 <= event_duration ev)%Q ->
  (0 <= nextStartTime (final (handle throws ev s)))%Q /\
  Forall (fun td => (0 <= td.1)%Q) (schedule (trace (handle throws ev s))).
Proof.
  intros Hs Hd.
  pose proof (Qle_refl 0) as H0.
  destruct ev; cbn [handle event_duration] in *.
  - rewrite connectLive_run. destruct (throws getAi); cbn; split; done.
  - rewrite onopen_run. destruct (throws getUserMedia); cbn; split; done.
  - rewrite onaudioprocess_run. destruct (liveSession s); cbn; split; done.
  - rewrite onmessage_run. cbv zeta.
    pose proof (Q.le_max_l (nextStartTime s) (currentTime p)) as Hmax.
    assert (0 <= Qmax (nextStartTime s) (currentTime p))%Q as Hm by lra.
    destruct (throws (cb_onMessage message)); [by cbn|].
    destruct (base64Audio_of message) as [v|x]; [|by cbn].
    destruct (truthy v) as [b|]; [|by cbn].
    destruct (throws (decodeAudioData b)); [by cbn|].
    destruct (throws (source_start _ _ _)); cbn.
    + split; [done|by repeat constructor].
    + split; [by apply fadd_nonneg|by repeat constructor].
  - rewrite onmessage_begin_run.
    pose proof (Q.le_max_l (nextStartTime s) (currentTime p)) as Hmax.
    assert (0 <= Qmax (nextStartTime s) (currentTime p))%Q as Hm by lra.
    destruct (throws (cb_onMessage message)); [by cbn|].
    destruct (base64Audio_of message) as [v|x]; [|by cbn].
    destruct (truthy v) as [b|]; by cbn.
  - rewrite onmessage_resume_run. cbv zeta.
    destruct (throws (source_start _ _ _)); cbn.
    + split; [done|by repeat constructor].
    + split; [by apply fadd_nonneg|by repeat constructor].
  - cbn. split; done.
  - cbn. split; done.
  - cbn. split; done.
  - rewrite closeLiveSession_schedule. split; [|constructor].
    destruct (closeLiveSession_final throws s) as [->| [->| ->]]; cbn; done.
Qed.

(** X11: from a cursor at or above zero, through any run of events
    (teardowns and failing calls included) whose buffers have non-negative
    durations, the cursor stays at or above zero and no node is started at a
    negative time. *)
Theorem start_times_are_never_negative (throws : Effect -> bool) (evs : list Event)
    (s : State) :
  (0 <= nextStartTime s)%Q ->
  Forall (fun ev => (0 <= event_duration ev)%Q) evs ->
  (0 <= nextStartTime (run_events throws evs s).1)%Q /\
  Forall (fun td => (0 <= td.1)%Q) (schedule (run_events throws evs s).2).
Proof.
  intros Hs Hevs. revert s Hs.
  induction Hevs as [|ev evs Hd _ IH]; intros s Hs.
  - cbn. split; [done|constructor].
  - cbn [run_events].
    destruct (handle_cursor_nonneg throws ev s Hs Hd) as [Hs' Ht].
    destruct (IH _ Hs') as [IH1 IH2].
    destruct (run_events throws evs (final (handle throws ev s))) as [s' t].
    cbn [fst snd] in *. rewrite schedule_app. split; [done|].
    by apply Forall_app_2.
Qed.

Lemma start_times_are_never_negative_witness :
  let p := {| currentTime := (-3)%Q; duration := (1 # 2)%Q; sourceNode := 9%nat |} in
  let evs := [ev_closeLiveSession; ev_message (audio_message "AAAA") p] in
  (0 <= nextStartTime open_state_example)%Q /\
  Forall (fun ev => (0 <= event_duration ev)%Q) evs /\
  start_times (run_events no_throw evs open_state_example).2 = [0%Q] /\
  (0 <= nextStartTime (run_events no_throw evs open_state_example).1)%Q.
Proof.
  intros p evs.
  assert (0 <= nextStartTime open_state_example)%Q as Hs by discriminate.
  assert (Forall (fun ev => (0 <= event_duration ev)%Q) evs) as Hevs.
  { repeat constructor; discriminate. }
  destruct (start_times_are_never_negative no_throw evs open_state_example Hs Hevs)
    as [Hc _].
  split; [exact Hs|]. split; [exact Hevs|]. split; [vm_compute; reflexivity|exact Hc].
Defined.



(** X13: the contexts that [connectLive] replaces are never closed: after
    [connectLive] has put two new contexts in place, the only contexts a
    later [closeLiveSession] closes are those two. *)
Theorem replaced_contexts_are_never_closed (throws : Effect -> bool)
    (input output : AudioContext) (s : State) (c : AudioContext) :
  throws getAi = false ->
  context_close c ∈
    trace (closeLiveSession throws (final (connectLive throws input output s))) ->
  c = input \/ c = output.
Proof.
  intros Hai Hc. rewrite connectLive_run, Hai in Hc. cbn [final] in Hc.
  apply closeLiveSession_trace_elem_of in Hc.
  unfold releases, session_release, device_releases in Hc.
  cbn [liveSession mediaStream scriptProcessor inputAudioContext
       outputAudioContext sources set_audioContexts] in Hc.
  rewrite !elem_of_app in Hc.
  destruct Hc as [Hc|[Hc|[Hc|[Hc|[Hc|Hc]]]]].
  - destruct (liveSession s); [|by apply elem_of_nil in Hc].
    by apply list_elem_of_singleton in Hc.
  - destruct (mediaStream s); [|by apply elem_of_nil in Hc].
    apply list_elem_of_fmap in Hc as (t & Ht & _). done.
  - destruct (scriptProcessor s); [|by apply elem_of_nil in Hc].
    by apply list_elem_of_singleton in Hc.
  - apply list_elem_of_singleton in Hc. left. congruence.
  - apply list_elem_of_singleton in Hc. right. congruence.
  - apply list_elem_of_fmap in Hc as (t & Ht & _). done.
Qed.

Lemma replaced_contexts_are_never_closed_witness :
  no_throw getAi = false /\
  (context_close 12%nat ∈
     trace (closeLiveSession no_throw
              (final (connectLive no_throw 11%nat 12%nat open_state_example)))) /\
  (12%nat = 11%nat \/ 12%nat = 12%nat) /\
  inputAudioContext open_state_example = Some 1%nat /\
  trace (closeLiveSession no_throw
           (final (connectLive no_throw 11%nat 12%nat open_state_example))) =
    [session_close 3%nat; track_stop 4%nat; processor_disconnect 5%nat;
     context_close 11%nat; context_close 12%nat; source_stop 7%nat].
Proof.
  assert (context_close 12%nat ∈
     trace (closeLiveSession no_throw
              (final (connectLive no_throw 11%nat 12%nat open_state_example)))) as Hin.
  { rewrite closeLiveSession_run. vm_compute.
    do 4 apply list_elem_of_further. apply list_elem_of_here. }
  split; [reflexivity|]. split; [exact Hin|]. split.
  - exact (replaced_contexts_are_never_closed no_throw 11%nat 12%nat
             open_state_example 12%nat eq_refl Hin).
  - split; [reflexivity|]. rewrite closeLiveSession_run. vm_compute. reflexivity.
Defined.

(** X14: an inbound message, with or without audio and whatever raises,
    touches only the scheduler: the session handle, both contexts, the
    capture stream and the processor are as before, no node leaves
    [sources], and nothing is sent or released. *)
Theorem message_touches_only_the_scheduler (throws : Effect -> bool)
    (message : LiveServerMessage) (p : Playback) (s : State) :
  let r := onmessage throws message p s in
  liveSession (final r) = liveSession s /\
  inputAudioContext (final r) = inputAudioContext s /\
  outputAudioContext (final r) = outputAudioContext s /\
  mediaStream (final r) = mediaStream s /\
  scriptProcessor (final r) = scriptProcessor s /\
  sources s ⊆ sources (final r) /\
  Forall (fun e => is_send e = false /\ e ∉ releases s) (trace r).
Proof.
  intros r. subst r. rewrite onmessage_run. cbv zeta.
  assert (forall e, is_host_callback e = true -> e ∉ releases s) as Hcb.
  { intros e He Hin. pose proof (releases_not_callbacks s) as Hr.
    rewrite Forall_forall in Hr. apply Hr in Hin. congruence. }
  assert (forall b, decodeAudioData b ∉ releases s) as Hdec.
  { intros b Hin. pose proof (releases_not_decoding s) as Hr.
    rewrite Forall_forall in Hr. by apply (Hr _ Hin b). }
  assert (forall n d t, source_start n d t ∉ releases s) as Hst.
  { intros n d t Hin. pose proof (releases_not_starts s) as Hr.
    rewrite Forall_forall in Hr. by apply Hr in Hin. }
  destruct (throws (cb_onMessage message)); cbn.
  { repeat split; try done. repeat constructor. by apply Hcb. }
  destruct (base64Audio_of message) as [v|x]; cbn.
  2: { repeat split; try done. repeat constructor. by apply Hcb. }
  destruct (truthy v) as [b|]; cbn.
  2: { repeat split; try done. repeat constructor. by apply Hcb. }
  destruct (throws (decodeAudioData b)); cbn.
  { repeat split; try done. repeat constructor; try done. by apply Hcb. }
  destruct (throws (source_start _ _ _)); cbn.
  - repeat split; try done. repeat constructor; try done. by apply Hcb.
  - repeat split; try done.
    + intros n Hn. apply elem_of_Set_add. by left.
    + repeat constructor; try done. by apply Hcb.
Qed.

(** ** The request functions *)

Section ServiceFacts.
Import Service.

(** X15: the client is made once: [getAi] raises exactly when there is no
    client yet and the key is missing or empty, with the message of the
    source and leaving no client; otherwise it returns a client, which it
    keeps: the client that was there or, when there was none, a new one made
    with the key, which is then not empty.  Once it has returned a client
    every later call returns that same client without looking at the key
    again. *)
Theorem getAi_keeps_the_first_client (API_KEY : option string)
    (ai : option GoogleGenAI) :
  ((exists message ai', getAi API_KEY ai = (Raised message, ai')) <->
     ai = None /\ (API_KEY = None \/ API_KEY = Some EmptyString)) /\
  ((exists client ai', getAi API_KEY ai = (Returned client, ai')) <->
     is_Some ai \/ exists key, API_KEY = Some key /\ key <> EmptyString) /\
  (forall message ai', getAi API_KEY ai = (Raised message, ai') ->
     message = "API_KEY environment variable not set." /\
     ai = None /\ ai' = None /\ (API_KEY = None \/ API_KEY = Some EmptyString)) /\
  (forall client ai', getAi API_KEY ai = (Returned client, ai') ->
     ai' = Some client /\
     (forall before, ai = Some before -> client = before) /\
     (ai = None -> API_KEY = Some (apiKey client) /\ apiKey client <> EmptyString) /\
     forall later_key, getAi later_key ai' = (Returned client, ai')).
Proof.
  unfold getAi. split; [|split; [|split]].
  - split.
    + intros (message & ai' & H). destruct ai as [c|]; [done|].
      destruct API_KEY as [[|a k]|]; inversion H; auto.
    + intros [-> [-> | ->]]; eauto.
  - split.
    + intros (client & ai' & H). destruct ai as [c|]; [left; eauto|].
      destruct API_KEY as [[|a k]|]; inversion H. right. eauto.
    + intros [[c ->]|(key & -> & Hne)]; [eauto|].
      destruct ai as [c|]; [eauto|]. destruct key as [|a k]; [done|eauto].
  - intros message ai' H. destruct ai as [c|]; [done|].
    destruct API_KEY as [[|a k]|]; inversion H; auto.
  - intros client ai' H. destruct ai as [c|].
    + inversion H; subst. split; [done|]. split; [by intros ? [= ->]|]. done.
    + destruct API_KEY as [[|a k]|]; inversion H; subst. done.
Qed.

Lemma getAi_keeps_the_first_client_witness :
  getAi (Some "key-1") None =
    (Returned {| apiKey := "key-1" |}, Some {| apiKey := "key-1" |}) /\
  getAi (Some "key-2") (Some {| apiKey := "key-1" |}) =
    (Returned {| apiKey := "key-1" |}, Some {| apiKey := "key-1" |}) /\
  getAi None (Some {| apiKey := "key-1" |}) =
    (Returned {| apiKey := "key-1" |}, Some {| apiKey := "key-1" |}) /\
  (exists message ai', getAi (Some EmptyString) None = (Raised message, ai')).
Proof.
  destruct (getAi_keeps_the_first_client (Some "key-1") None) as (_ & _ & _ & H).
  destruct (H _ _ eq_refl) as (_ & _ & _ & Hlater).
  destruct (getAi_keeps_the_first_client (Some EmptyString) None) as ([_ Hraise] & _).
  split; [reflexivity|]. split; [exact (Hlater (Some "key-2"))|].
  split; [exact (Hlater None)|]. apply Hraise. split; [reflexivity|by right].
Defined.

(** X16: what [generateTextStream] asks for, by mode: the prompt is the
    only part; a thinking budget goes exactly with the model
    [gemini-2.5-pro]; a tool is attached only for the model
    [gemini-2.5-flash], one tool at most and never with a thinking budget;
    the location goes exactly with the maps tool.  The call fails exactly
    when [getAi] does, before any request is built. *)
Theorem text_request_by_mode (API_KEY : option string) (ai : option GoogleGenAI)
    (prompt : string) (mode : ChatMode) :
  (forall message ai', generateTextStream API_KEY ai prompt mode = (Raised message, ai') <->
                       getAi API_KEY ai = (Raised message, ai')) /\
  (forall request ai', generateTextStream API_KEY ai prompt mode = (Returned request, ai') ->
     contents request = [prompt] /\
     (thinkingBudget (config request) = Some 32768 <-> model request = "gemini-2.5-pro") /\
     (thinkingBudget (config request) = None <-> model request <> "gemini-2.5-pro") /\
     (forall ts, tools (config request) = Some ts ->
        model request = "gemini-2.5-flash" /\ length ts = 1%nat /\
        thinkingBudget (config request) = None) /\
     (is_Some (retrievalConfig (config request)) <->
        tools (config request) = Some [googleMaps])).
Proof.
  unfold generateTextStream. split.
  - intros message ai'. destruct (getAi API_KEY ai) as [[c|m] ai1]; split;
      intros H; inversion H; done.
  - intros request ai'. destruct (getAi API_KEY ai) as [[c|m] ai1]; [|done].
    intros H. inversion H; subst. clear H.
    destruct mode; cbn; repeat split; try done; try (intros [? ?]; done);
      try (intros ts Hts; inversion Hts; done);
      try (intros ? ; eexists; done).
    all: by simplify_eq.
Qed.

Lemma text_request_by_mode_witness :
  generateTextStream (Some "key") None "hello" maps =
    (Returned {| model := "gemini-2.5-flash"; contents := ["hello"];
                 config := text_config maps |}, Some {| apiKey := "key" |}) /\
  tools (text_config maps) = Some [googleMaps] /\
  thinkingBudget (text_config maps) = None.
Proof.
  destruct (text_request_by_mode (Some "key") None "hello" maps) as [_ H].
  destruct (H _ _ eq_refl) as (_ & _ & _ & Htools & _).
  destruct (Htools [googleMaps] eq_refl) as (_ & _ & Hbudget).
  split; [reflexivity|]. split; [reflexivity|exact Hbudget].
Defined.

Lemma Promise_all_fulfilled {A} (ps : list (outcome A)) (values : list A) :
  Promise_all ps = inl values <-> ps = Returned <$> values.
Proof.
  revert values. induction ps as [|[a|m] ps IH]; intros values; cbn.
  - split; [intros [= <-]; done|]. by destruct values.
  - destruct (Promise_all ps) as [vs|rs] eqn:Hps.
    + split.
      * intros [= <-]. cbn. f_equal. by apply IH.
      * destruct values as [|v values]; [done|]. cbn. intros [= -> Hrest].
        f_equal. f_equal. apply IH in Hrest. by injection Hrest.
    + split; [done|]. destruct values as [|v values]; [done|]. cbn.
      intros [= -> Hrest]. by apply IH in Hrest.
  - destruct (Promise_all ps) as [vs|rs]; split; try done; by destruct values.
Qed.

Lemma Promise_all_rejected {A} (ps : list (outcome A)) (reasons : list string) :
  Promise_all ps = inr reasons ->
  reasons <> [] /\ forall m, m ∈ reasons <-> Raised m ∈ ps.
Proof.
  revert reasons. induction ps as [|[a|m] ps IH]; intros reasons; cbn; [done| |].
  - destruct (Promise_all ps) as [vs|rs] eqn:Hps; [done|]. intros [= <-].
    destruct (IH _ eq_refl) as [Hne Hin]. split; [done|]. intros m.
    rewrite Hin, elem_of_cons. split; [auto|]. by intros [?|?].
  - destruct (Promise_all ps) as [vs|rs] eqn:Hps; intros [= <-].
    + split; [done|]. intros m'. rewrite list_elem_of_singleton, elem_of_cons.
      apply Promise_all_fulfilled in Hps. subst ps. split; [intros ->; by left|].
      intros [[= ->]|Hin]; [done|].
      apply list_elem_of_fmap in Hin as (? & ? & _). done.
    + destruct (IH _ eq_refl) as [Hne Hin]. split; [done|]. intros m'.
      rewrite !elem_of_cons, Hin. split; [intros [->|?]; auto|].
      intros [[= ->]|?]; auto.
Qed.

(** X17: [analyzeContent] obtains the client first and fails as [getAi]
    does, before any file is read; it then reads the files and fails when a
    read is rejected, with the reason of one of the rejected reads.  When
    all reads succeed it sends one inline part per file, in the order of
    the files and with each file's own MIME type and data, followed by the
    prompt as the last part, and picks [gemini-2.5-pro] exactly when some
    file's type starts with [video/], so also never for an empty file
    list. *)
Theorem analyze_request_parts_and_model (API_KEY : option string)
    (ai : option GoogleGenAI) (prompt : string) (files : list File) :
  let r := analyzeContent API_KEY ai prompt files in
  (forall message ai', getAi API_KEY ai = (Raised message, ai') ->
     r = (KeyMissing message, ai')) /\
  (forall client ai', getAi API_KEY ai = (Returned client, ai') ->
     r.2 = ai' /\
     (forall reasons, r.1 = ReadFailed reasons ->
        reasons <> [] /\
        forall m, m ∈ reasons <-> exists f, f ∈ files /\ base64Data f = Raised m) /\
     ((exists request, r.1 = Asked request) <->
        exists datas, base64Data <$> files = Returned <$> datas) /\
     ((exists reasons, r.1 = ReadFailed reasons) <->
        exists f m, f ∈ files /\ base64Data f = Raised m) /\
     (forall request, r.1 = Asked request ->
        length (content_parts request) = S (length files) /\
        (forall (i : nat) (f : File), files !! i = Some f ->
           exists data, base64Data f = Returned data /\
             content_parts request !! i = Some (inlinePart (type f) data)) /\
        content_parts request !! length files = Some (textPart prompt) /\
        (content_model request = "gemini-2.5-pro" <->
           exists f, f ∈ files /\ String.prefix "video/" (type f) = true) /\
        (content_model request = "gemini-2.5-flash" <->
           Forall (fun f => String.prefix "video/" (type f) = false) files))).
Proof.
  intros r. subst r. unfold analyzeContent. split.
  { intros message ai' ->. done. }
  intros client ai' ->.
  assert (forall m, Raised m ∈ fileToGenerativePart <$> files <->
                    exists f, f ∈ files /\ base64Data f = Raised m) as Hrej.
  { intros m. rewrite list_elem_of_fmap. unfold fileToGenerativePart. split.
    - intros (f & Hf & Hin). exists f. split; [done|].
      destruct (base64Data f); by inversion Hf.
    - intros (f & Hin & Hf). exists f. by rewrite Hf. }
  assert (forall parts, fileToGenerativePart <$> files = Returned <$> parts ->
            exists datas, base64Data <$> files = Returned <$> datas) as Hok.
  { clear. induction files as [|f files IH]; intros parts Hp.
    - by exists [].
    - destruct parts as [|part parts]; [done|]. cbn in Hp.
      injection Hp as Hf Hrest. destruct (IH _ Hrest) as [datas Hd].
      unfold fileToGenerativePart in Hf.
      destruct (base64Data f) as [d|] eqn:Hbd; [|done].
      exists (d :: datas). cbn. by rewrite Hbd, Hd. }
  assert (forall datas, base64Data <$> files = Returned <$> datas ->
            fileToGenerativePart <$> files =
              Returned <$> (zip_with (fun f d => inlinePart (type f) d) files datas))
    as Hparts.
  { clear. induction files as [|f files IH]; intros datas Hd.
    - done.
    - destruct datas as [|d datas]; [done|]. cbn in Hd.
      injection Hd as Hf Hrest. cbn. rewrite (IH _ Hrest).
      unfold fileToGenerativePart. by rewrite Hf. }
  destruct (Promise_all (fileToGenerativePart <$> files)) as [parts|reasons] eqn:Hall;
    cbn [fst snd].
  - apply Promise_all_fulfilled in Hall.
    split; [done|]. split; [done|]. split; [|split].
    { split; [intros _; by eapply Hok|]. intros _. eauto. }
    { split; [by intros [? ?]|]. intros (f & m & Hin & Hf).
      assert (Raised m ∈ fileToGenerativePart <$> files) as Hbad by (apply Hrej; eauto).
      rewrite Hall in Hbad. apply list_elem_of_fmap in Hbad as (? & ? & _). done. }
    intros request [= <-]. cbn.
    assert (length parts = length files) as Hlen.
    { rewrite <- (length_fmap fileToGenerativePart files), Hall. by rewrite length_fmap. }
    split; [rewrite length_app, Hlen; cbn; lia|]. split.
    { intros i f Hi.
      assert ((fileToGenerativePart <$> files) !! i = Some (fileToGenerativePart f)) as Hfi
        by (by rewrite list_lookup_fmap, Hi).
      rewrite Hall, list_lookup_fmap in Hfi.
      destruct (parts !! i) as [part|] eqn:Hpi; [|done]. cbn in Hfi.
      unfold fileToGenerativePart in Hfi.
      destruct (base64Data f) as [d|]; [|done].
      exists d. split; [done|]. injection Hfi as ->.
      rewrite lookup_app_l; [done|]. by eapply lookup_lt_Some. }
    split.
    { rewrite lookup_app_r; rewrite Hlen; [|done]. by rewrite Nat.sub_diag. }
    destruct (existsb (fun f => String.prefix "video/" (type f)) files) eqn:He.
    + apply existsb_exists in He as (f & Hin & Hf). split.
      * split; [intros _|done]. exists f. split; [by apply list_elem_of_In|done].
      * split; [done|]. intros Hfl. rewrite Forall_forall in Hfl.
        apply list_elem_of_In in Hin. apply Hfl in Hin. congruence.
    + split.
      * split; [done|]. intros (f & Hin & Hf).
        assert (existsb (fun f => String.prefix "video/" (type f)) files = true) as Ht.
        { apply existsb_exists. exists f. split; [by apply list_elem_of_In|done]. }
        congruence.
      * split; [intros _|done]. apply Forall_forall. intros f Hin.
        destruct (String.prefix "video/" (type f)) eqn:Hf; [|done].
        assert (existsb (fun f => String.prefix "video/" (type f)) files = true) as Ht.
        { apply existsb_exists. exists f. split; [by apply list_elem_of_In|done]. }
        congruence.
  - destruct (Promise_all_rejected _ _ Hall) as [Hne Hin].
    split; [done|]. split; [|split; [|split]].
    + intros reasons' [= <-]. split; [done|]. intros m. by rewrite Hin, Hrej.
    + split; [by intros [? ?]|]. intros [datas Hd].
      apply Hparts in Hd. apply Promise_all_fulfilled in Hd. congruence.
    + split; [|eauto]. intros _. destruct reasons as [|m reasons]; [done|].
      assert (m ∈ m :: reasons) as Hm by apply list_elem_of_here.
      apply Hin, Hrej in Hm as (f & Hf & Hb). eauto.
    + done.
Qed.

Lemma analyze_request_parts_and_model_witness :
  let clip := {| type := "video/mp4"; base64Data := Returned "AAAA" |} in
  let photo := {| type := "image/png"; base64Data := Returned "iVBO" |} in
  let broken := {| type := "image/png"; base64Data := Raised "NotReadableError" |} in
  getAi (Some "key") None =
    (Returned {| apiKey := "key" |}, Some {| apiKey := "key" |}) /\
  analyzeContent (Some "key") None "what is this?" [photo; clip] =
    (Asked {| content_model := "gemini-2.5-pro";
              content_parts := [inlinePart "image/png" "iVBO";
                                inlinePart "video/mp4" "AAAA";
                                textPart "what is this?"] |},
     Some {| apiKey := "key" |}) /\
  content_parts {| content_model := "gemini-2.5-pro";
                   content_parts := [inlinePart "image/png" "iVBO";
                                     inlinePart "video/mp4" "AAAA";
                                     textPart "what is this?"] |} !! 2%nat =
    Some (textPart "what is this?") /\
  analyzeContent None None "what is this?" [photo; clip] =
    (KeyMissing "API_KEY environment variable not set.", None) /\
  (analyzeContent (Some "key") None "what is this?" [photo; broken]).1 =
    ReadFailed ["NotReadableError"].
Proof.
  intros clip photo broken.
  destruct (analyze_request_parts_and_model (Some "key") None "what is this?"
              [photo; clip]) as [_ Hok].
  destruct (Hok _ _ eq_refl) as (_ & _ & _ & _ & Hreq).
  destruct (Hreq _ eq_refl) as (_ & _ & Hlast & _).
  destruct (analyze_request_parts_and_model None None "what is this?"
              [photo; clip]) as [Hkey _].
  split; [reflexivity|]. split; [reflexivity|]. split; [exact Hlast|].
  split; [exact (Hkey _ _ eq_refl)|reflexivity].
Defined.

(** X18: [editImage] looks at one place only: it returns when the first
    part of the first candidate carries inline data (returning that data,
    set or not), and raises otherwise, whatever the other parts and the
    other candidates hold. *)
Theorem editImage_reads_only_the_first_part (response : GenerateContentResponse) :
  (forall d, editImage_result response = Returned d <->
     exists part blob, first_part response = Some part /\
       Live.inlineData part = Some blob /\ Live.data blob = d) /\
  (forall c cs ct p ps,
     candidates response = Some (c :: cs) -> content c = Some ct ->
     Live.parts ct = Some (p :: ps) -> Live.inlineData p = None ->
     editImage_result response = Raised "No image generated").
Proof.
  unfold editImage_result. split.
  - intros d. destruct (first_part response) as [part|].
    + destruct (Live.inlineData part) as [blob|] eqn:Hblob; split.
      * intros H. inversion H. by exists part, blob.
      * intros (p & b & Hp & Hb & Hd). by simplify_eq.
      * done.
      * intros (p & b & Hp & Hb & Hd). by simplify_eq.
    + split; [done|]. intros (p & b & Hp & _). done.
  - intros c cs ct p ps Hc Hct Hps Hp. unfold first_part.
    rewrite Hc. cbn. rewrite Hct. cbn. rewrite Hps. cbn. by rewrite Hp.
Qed.

Lemma editImage_reads_only_the_first_part_witness :
  let text_first :=
    {| candidates := Some [{| content := Some {| Live.parts := Some
         [{| Live.inlineData := None |};
          {| Live.inlineData := Some {| Live.data := Some "iVBORw0KGgo=" |} |}] |} |}] |} in
  editImage_result text_first = Raised "No image generated".
Proof.
  intros text_first.
  destruct (editImage_reads_only_the_first_part text_first) as [_ H].
  exact (H _ _ _ _ _ eq_refl eq_refl eq_refl eq_refl).
Defined.

Lemma poll_waiting (API_KEY : option string) (w : Operation) (ws : list Operation)
    (final : Operation) (rest : list (outcome Operation)) (progress : list string) :
  Forall (fun o => done o = false) (w :: ws) ->
  poll API_KEY w ((Returned <$> ws) ++ Returned final :: rest) progress =
    poll API_KEY final rest (progress ++ (in_progress <$> (w :: ws))).
Proof.
  revert w progress. induction ws as [|w' ws IH]; intros w progress Hw.
  - apply Forall_cons in Hw as [Hw _]. cbn. by rewrite Hw.
  - apply Forall_cons in Hw as [Hw Hws]. cbn [fmap list_fmap app poll].
    rewrite Hw. fold (fmap (M:=list) (@Returned Operation) ws).
    rewrite IH by done. by rewrite <- app_assoc.
Qed.

(** X19: once the client is made, [pollVideoOperation] reports progress
    once for every answer that is not done, asks again after each, and stops
    at the first answer that is done, never asking for the ones after it; it
    then reports completion and fetches the link with the key appended, or,
    when the operation carries no link, raises after having reported
    completion all the same. *)
Theorem polling_stops_at_the_first_done_answer
    (new_GoogleGenAI : option string -> outcome GoogleGenAI)
    (API_KEY : option string) (client : GoogleGenAI)
    (w : Operation) (ws : list Operation) (final : Operation)
    (rest : list (outcome Operation)) :
  new_GoogleGenAI API_KEY = Returned client ->
  Forall (fun o => done o = false) (w :: ws) ->
  done final = true ->
  let r := pollVideoOperation new_GoogleGenAI API_KEY w
             ((Returned <$> ws) ++ Returned final :: rest) in
  progress_of r = (in_progress <$> (w :: ws)) ++ [complete] /\
  r = pollVideoOperation new_GoogleGenAI API_KEY w ((Returned <$> ws) ++ [Returned final]) /\
  (forall link, uri final = Some link -> link <> EmptyString ->
     r = Fetching (progress_of r) (link +:+ "&key=" +:+ default "undefined" API_KEY)) /\
  (uri final = None \/ uri final = Some EmptyString ->
     r = Failed (progress_of r) "Video generation failed or URI not found.").
Proof.
  intros Hnew Hw Hf r. subst r. unfold pollVideoOperation. rewrite Hnew.
  rewrite !poll_waiting by done.
  assert (forall rest', poll API_KEY final rest' ([] ++ (in_progress <$> w :: ws)) =
                        finish API_KEY final (in_progress <$> w :: ws)) as Hp.
  { intros rest'. destruct rest'; cbn; by rewrite Hf. }
  rewrite !Hp. unfold finish.
  destruct (uri final) as [[|a l]|]; cbn; repeat split; try done.
  all: try (intros link Hl Hne; by inversion Hl).
  all: try (intros [H|H]; done).
Qed.

Lemma polling_stops_at_the_first_done_answer_witness :
  let waiting := {| done := false; state := None; uri := None |} in
  let running := {| done := false; state := Some "RUNNING"; uri := None |} in
  let ready := {| done := true; state := Some "DONE"; uri := Some "https://v/1?alt=media" |} in
  keyed_GoogleGenAI (Some "k") = Returned {| apiKey := "k" |} /\
  Forall (fun o => done o = false) [waiting; running] /\
  pollVideoOperation keyed_GoogleGenAI (Some "k") waiting
    [Returned running; Returned ready; Raised "late"] =
    Fetching ["Video generation in progress... State: PROCESSING";
              "Video generation in progress... State: RUNNING";
              "Video processing complete! Fetching video..."]
             "https://v/1?alt=media&key=k".
Proof.
  intros waiting running ready.
  assert (Forall (fun o => done o = false) [waiting; running]) as Hw
    by (repeat constructor).
  destruct (polling_stops_at_the_first_done_answer keyed_GoogleGenAI (Some "k")
              {| apiKey := "k" |} waiting [running] ready
              [Raised "late"] eq_refl Hw eq_refl) as (_ & _ & Hfetch & _).
  split; [reflexivity|]. split; [exact Hw|].
  etrans; [exact (Hfetch _ eq_refl ltac:(discriminate))|]. reflexivity.
Defined.

(** X20: when the client cannot be made, [pollVideoOperation] ends at once
    with the constructor's error, having reported nothing and asked
    nothing.  Once the client is made, while no answer is done the call is
    still in its loop, having reported progress once per answer and once for
    the operation it was given, and never completion; a rejected answer ends
    the call with that rejection. *)
Theorem polling_without_a_done_answer
    (new_GoogleGenAI : option string -> outcome GoogleGenAI)
    (API_KEY : option string) (w : Operation) (ws : list Operation) :
  Forall (fun o => done o = false) (w :: ws) ->
  (forall message responses, new_GoogleGenAI API_KEY = Raised message ->
     pollVideoOperation new_GoogleGenAI API_KEY w responses = NoClient message /\
     progress_of (pollVideoOperation new_GoogleGenAI API_KEY w responses) = []) /\
  (forall client, new_GoogleGenAI API_KEY = Returned client ->
     pollVideoOperation new_GoogleGenAI API_KEY w (Returned <$> ws) =
       Polling (in_progress <$> (w :: ws)) /\
     (forall reason rest,
        pollVideoOperation new_GoogleGenAI API_KEY w
          ((Returned <$> ws) ++ Raised reason :: rest) =
          Rejected (in_progress <$> (w :: ws)) reason)) /\
  complete ∉ in_progress <$> (w :: ws).
Proof.
  intros Hw. unfold pollVideoOperation.
  assert (forall progress tail,
    poll API_KEY w ((Returned <$> ws) ++ tail) progress =
      match tail with
      | [] => Polling (progress ++ (in_progress <$> (w :: ws)))
      | Raised reason :: _ => Rejected (progress ++ (in_progress <$> (w :: ws))) reason
      | Returned final :: rest =>
          poll API_KEY final rest (progress ++ (in_progress <$> (w :: ws)))
      end) as Hgen.
  { clear -Hw. revert w Hw. induction ws as [|w' ws IH]; intros w Hw progress tail.
    - apply Forall_cons in Hw as [Hw _].
      destruct tail as [|[o|m] tail]; cbn; by rewrite Hw.
    - apply Forall_cons in Hw as [Hw Hws]. cbn [fmap list_fmap app poll].
      rewrite Hw. fold (fmap (M:=list) (@Returned Operation) ws).
      rewrite IH by done. rewrite <- app_assoc. done. }
  split; [|split].
  - intros message responses ->. done.
  - intros client ->. split.
    + specialize (Hgen [] []). rewrite app_nil_r in Hgen. exact Hgen.
    + intros reason rest. exact (Hgen [] (Raised reason :: rest)).
  - intros Hin. apply list_elem_of_fmap in Hin as (o & Ho & _).
    unfold complete, in_progress in Ho. discriminate.
Qed.

Lemma polling_without_a_done_answer_witness :
  let waiting := {| done := false; state := None; uri := None |} in
  Forall (fun o => done o = false) [waiting; waiting] /\
  pollVideoOperation keyed_GoogleGenAI (Some "k") waiting [Returned waiting] =
    Polling ["Video generation in progress... State: PROCESSING";
             "Video generation in progress... State: PROCESSING"] /\
  pollVideoOperation keyed_GoogleGenAI None waiting [Returned waiting] =
    NoClient "An API Key must be set.".
Proof.
  intros waiting.
  assert (Forall (fun o => done o = false) [waiting; waiting]) as Hw
    by (repeat constructor).
  destruct (polling_without_a_done_answer keyed_GoogleGenAI (Some "k") waiting
              [waiting] Hw) as (_ & Hpoll & _).
  destruct (Hpoll _ eq_refl) as [H _].
  destruct (polling_without_a_done_answer keyed_GoogleGenAI None waiting
              [waiting] Hw) as (Hnone & _).
  destruct (Hnone _ [Returned waiting] eq_refl) as [Hn _].
  split; [exact Hw|]. split; [|exact Hn]. etrans; [exact H|]. reflexivity.
Defined.

End ServiceFacts.

(** ** The message list *)

Section AppFacts.
Import App.

Lemma string_app_assoc (a b c : string) : (a +:+ b) +:+ c = a +:+ (b +:+ c).
Proof.
  induction a as [|x a IH]; [done|].
  change (String x ((a +:+ b) +:+ c) = String x (a +:+ (b +:+ c))). by rewrite IH.
Qed.

Lemma string_app_nil_r (a : string) : a +:+ EmptyString = a.
Proof.
  induction a as [|x a IH]; [done|].
  change (String x (a +:+ EmptyString) = String x a). by rewrite IH.
Qed.

Lemma updateMessageContent_absent (i : string) (newContent : Content)
    (prev : list Message) :
  i ∉ id <$> prev -> updateMessageContent i newContent prev = prev.
Proof.
  intros Hni. unfold updateMessageContent.
  rewrite <- (list_fmap_id prev) at 2. apply list_fmap_ext.
  intros k msg Hk. destruct (String.eqb_spec (id msg) i) as [He|]; [|done].
  exfalso. apply Hni. apply list_elem_of_fmap. exists msg.
  split; [done|]. by eapply list_elem_of_lookup_2.
Qed.

(** X21: [updateMessageContent] replaces the content of the messages
    with the given identifier and nothing else: the list keeps its length
    and order, every message keeps its identifier, role and date, messages
    with another identifier are untouched, and an identifier that no message
    has changes nothing. *)
Theorem update_changes_only_that_content (i : string) (newContent : Content)
    (prev : list Message) :
  let next := updateMessageContent i newContent prev in
  id <$> next = id <$> prev /\
  role <$> next = role <$> prev /\
  timestamp <$> next = timestamp <$> prev /\
  (forall (k : nat) (msg : Message), prev !! k = Some msg ->
     exists msg', next !! k = Some msg' /\
       (id msg = i -> content msg' = newContent) /\
       (id msg <> i -> msg' = msg)) /\
  (i ∉ id <$> prev -> next = prev).
Proof.
  intros next. subst next. unfold updateMessageContent.
  split; [|split; [|split; [|split]]].
  - rewrite <- list_fmap_compose. apply list_fmap_ext.
    intros k msg _. cbn. by destruct (String.eqb (id msg) i).
  - rewrite <- list_fmap_compose. apply list_fmap_ext.
    intros k msg _. cbn. by destruct (String.eqb (id msg) i).
  - rewrite <- list_fmap_compose. apply list_fmap_ext.
    intros k msg _. cbn. by destruct (String.eqb (id msg) i).
  - intros k msg Hk. rewrite list_lookup_fmap, Hk. cbn.
    eexists. split; [done|].
    destruct (String.eqb_spec (id msg) i); split; done.
  - apply updateMessageContent_absent.
Qed.

Lemma update_changes_only_that_content_witness :
  let m1 := {| id := "a"; role := user; content := text_content "hi" None; timestamp := 1 |} in
  let m2 := {| id := "b"; role := model; content := loading_content "Thinking..."; timestamp := 2 |} in
  ("c" ∉ id <$> [m1; m2]) /\
  updateMessageContent "c" (text_content "x" None) [m1; m2] = [m1; m2] /\
  updateMessageContent "b" (text_content "x" None) [m1; m2] =
    [m1; with_content m2 (text_content "x" None)].
Proof.
  intros m1 m2.
  assert ("c" ∉ id <$> [m1; m2]) as Hni.
  { cbn. intros H. repeat (apply elem_of_cons in H as [H|H]; [discriminate|]).
    by apply elem_of_nil in H. }
  destruct (update_changes_only_that_content "c" (text_content "x" None) [m1; m2])
    as (_ & _ & _ & _ & H).
  split; [exact Hni|]. split; [exact (H Hni)|reflexivity].
Defined.

(** X22: updates of one identifier overwrite each other, the last one
    winning, and updates of different identifiers can be swapped. *)
Theorem updates_compose (i j : string) (c d : Content) (prev : list Message) :
  updateMessageContent i d (updateMessageContent i c prev) =
    updateMessageContent i d prev /\
  (i <> j ->
   updateMessageContent i c (updateMessageContent j d prev) =
     updateMessageContent j d (updateMessageContent i c prev)).
Proof.
  unfold updateMessageContent. split.
  - rewrite <- list_fmap_compose. apply list_fmap_ext. intros k msg _. cbn.
    destruct (String.eqb_spec (id msg) i) as [He|Hne]; cbn.
    + by rewrite (proj2 (String.eqb_eq _ _) He).
    + by rewrite (proj2 (String.eqb_neq _ _) Hne).
  - intros Hij. rewrite <- !list_fmap_compose. apply list_fmap_ext.
    intros k msg _. cbn.
    repeat match goal with
           | |- context [String.eqb ?a ?b] =>
               destruct (String.eqb_spec a b); cbn in *
           end; congruence.
Qed.

Lemma updates_compose_witness :
  let m := {| id := "a"; role := model; content := loading_content "Thinking..."; timestamp := 1 |} in
  let n := {| id := "b"; role := model; content := loading_content "Thinking..."; timestamp := 2 |} in
  "a" <> "b" /\
  updateMessageContent "a" (text_content "x" None)
    (updateMessageContent "b" (text_content "y" None) [m; n]) =
  updateMessageContent "b" (text_content "y" None)
    (updateMessageContent "a" (text_content "x" None) [m; n]).
Proof.
  intros m n.
  destruct (updates_compose "a" "b" (text_content "x" None) (text_content "y" None) [m; n])
    as [_ H].
  split; [discriminate|]. apply H. discriminate.
Defined.

(** X23: the placeholder pattern of [sendMessage]: a message added with an
    identifier no earlier message has, then updated under that identifier,
    leaves the earlier messages as they were and ends the list with the new
    message carrying the new content. *)
Theorem added_message_is_the_one_updated (r : Role) (c newContent : Content)
    (uuid : string) (now : Z) (prev : list Message) :
  uuid ∉ id <$> prev ->
  updateMessageContent uuid newContent (addMessage r c uuid now prev) =
    prev ++ [{| id := uuid; role := r; content := newContent; timestamp := now |}].
Proof.
  intros Hfresh. unfold addMessage.
  pose proof (updateMessageContent_absent uuid newContent prev Hfresh) as Hsame.
  unfold updateMessageContent in *. rewrite fmap_app, Hsame. cbn.
  by rewrite String.eqb_refl.
Qed.

Lemma added_message_is_the_one_updated_witness :
  let m := {| id := "a"; role := user; content := text_content "hi" None; timestamp := 1 |} in
  ("b" ∉ id <$> [m]) /\
  updateMessageContent "b" (text_content "hello" None)
    (addMessage model (loading_content "Thinking...") "b" 2 [m]) =
    [m; {| id := "b"; role := model; content := text_content "hello" None; timestamp := 2 |}].
Proof.
  intros m.
  assert ("b" ∉ id <$> [m]) as Hfresh.
  { cbn. intros H. apply elem_of_cons in H as [H|H]; [discriminate|].
    by apply elem_of_nil in H. }
  split; [exact Hfresh|].
  exact (added_message_is_the_one_updated model (loading_content "Thinking...")
           (text_content "hello" None) "b" 2 [m] Hfresh).
Defined.

Lemma set_text_set_text (i f g : string) (b b' : bool) (msgs : list Message) :
  set_text i f b (set_text i g b' msgs) = set_text i f b msgs.
Proof.
  unfold set_text. rewrite <- list_fmap_compose. apply list_fmap_ext.
  intros k msg _. cbn.
  repeat match goal with
         | |- context [String.eqb ?a ?b] =>
             destruct (String.eqb_spec a b); cbn in *
         end; first [done | congruence].
Qed.

(** After its first chunk the loop only overwrites: what a later
    [set_text] leaves does not depend on the chunks in between. *)
Lemma stream_loop_later (i : string) (stream : list (option string))
    (full : string) (msgs : list Message) :
  (stream_loop i stream full false msgs).1 = full +:+ full_text stream /\
  forall f b, set_text i f b (stream_loop i stream full false msgs).2 = set_text i f b msgs.
Proof.
  revert full msgs. induction stream as [|chunk rest IH]; intros full msgs.
  - cbn. by rewrite string_app_nil_r.
  - cbn [stream_loop full_text foldr].
    destruct (IH (full +:+ chunk_text chunk) (set_text i (full +:+ chunk_text chunk) true msgs))
      as [IH1 IH2].
    split.
    + rewrite IH1. apply string_app_assoc.
    + intros f b. by rewrite IH2, set_text_set_text.
Qed.

(** X24: when the stream has ended, [streamTextResponse] has left every
    other message as it was and given the streamed message the text of all
    chunks in order (a chunk without text counting as the text
    ["undefined"]), with [isTyping] off and type text; an empty stream turns
    the message into an empty text message. *)
Theorem streamed_message_holds_the_whole_text (stream : list (option string))
    (messageId : string) (messages : list Message) :
  streamTextResponse stream messageId messages =
    (fun msg => if String.eqb (id msg) messageId
                then with_content msg (streamed_content stream (content msg))
                else msg) <$> messages.
Proof.
  unfold streamTextResponse. destruct stream as [|chunk rest].
  - done.
  - cbn [stream_loop].
    destruct (stream_loop_later messageId rest (EmptyString +:+ chunk_text chunk)
                (updateMessageContent messageId
                   (text_content (EmptyString +:+ chunk_text chunk) (Some true)) messages))
      as [H1 H2].
    destruct (stream_loop messageId rest _ false _) as [full msgs] eqn:Hloop.
    cbn [fst snd] in *. rewrite H2, H1.
    unfold set_text, updateMessageContent. rewrite <- list_fmap_compose.
    apply list_fmap_ext. intros k msg _. cbn.
    repeat match goal with
           | |- context [String.eqb ?a ?b] =>
               destruct (String.eqb_spec a b); cbn in *
           end; first [done | congruence].
Qed.

(** The same on a list of two messages and a stream of three chunks, the
    second without text. *)
Lemma streamed_message_example :
  let m1 := {| id := "a"; role := user; content := text_content "hi" None; timestamp := 1 |} in
  let m2 := {| id := "b"; role := model; content := loading_content "Thinking..."; timestamp := 2 |} in
  streamTextResponse [Some "Hel"; None; Some "lo"] "b" [m1; m2] =
    [m1; with_content m2 (text_content "Helundefinedlo" (Some false))] /\
  streamTextResponse [] "b" [m1; m2] =
    [m1; with_content m2 {| type := text_t; text := Some EmptyString;
                            isTyping := Some false; url := None; prompt := None |}].
Proof. intros m1 m2. split; reflexivity. Qed.

End AppFacts.

(** ** Host and service together *)

Section SystemFacts.
Import Host System.

Lemma host_after_app (t1 t2 : list Effect) (h : HostState) :
  host_after (t1 ++ t2) h = host_after t2 (host_after t1 h).
Proof. apply foldl_app. Qed.

Lemma host_after_loading (t : list Effect) (h : HostState) :
  cb_onOpen ∉ t -> isLoading (host_after t h) = isLoading h.
Proof.
  revert h. induction t as [|e t IH]; intros h Hno; [done|].
  change (isLoading (host_after t (host_callback h e)) = isLoading h).
  rewrite IH.
  - destruct e; try done. exfalso. apply Hno. left.
  - intros Hin. apply Hno. by right.
Qed.

Lemma device_releases_are_device (s : State) :
  Forall (fun e => is_device_release e = true) (device_releases s).
Proof.
  unfold device_releases.
  repeat apply Forall_app_2; repeat case_match;
    try (apply Forall_fmap, Forall_true; done);
    repeat constructor.
Qed.

(** A teardown whose device releases do not raise either returns, with the
    handle cleared, or raised at the transport's [close], with everything as
    it was. *)
Lemma closeLiveSession_two_ways (throws : Effect -> bool) (s : State) :
  (forall e, is_device_release e = true -> throws e = false) ->
  (result (closeLiveSession throws s) = Normal tt /\
   final (closeLiveSession throws s) = torn_down s) \/
  ((exists x, result (closeLiveSession throws s) = Throw x) /\
   final (closeLiveSession throws s) = s).
Proof.
  intros Hdev. rewrite closeLiveSession_run.
  assert (first_throw throws (device_releases s) = Normal tt) as ->.
  { apply first_throw_normal. eapply Forall_impl; [apply device_releases_are_device|].
    intros e He. by apply Hdev. }
  destruct (first_throw throws (session_release s)) as [[]|x]; cbn; eauto.
Qed.

Lemma step_holds_a_session (throws : Effect -> bool) (a : Action) (w : World) :
  (forall e, is_device_release e = true -> throws e = false) ->
  (forall ev, a = platform ev -> is_host_call ev = false) ->
  holds_a_session w -> holds_a_session (step throws a w).1.
Proof.
  intros Hdev Hev Hw. unfold holds_a_session in *.
  destruct w as [h s]. cbn [host service] in *.
  destruct a as [i o| |ev]; cbn [step host service fst].
  - destruct (isLoading h); [done|].
    unfold handleVoiceToggle, host_result.
    destruct (isVoiceSessionActive h) eqn:Hact.
    + unfold mbind, M_bind, mret, M_ret, bind, ret.
      destruct (closeLiveSession_two_ways throws s Hdev) as [[Hr Hf]|[[x Hr] Hf]];
        rewrite Hr; cbn; [done|]. rewrite Hf. auto.
    + unfold try_catch, mbind, M_bind, mret, M_ret, bind, ret.
      destruct (result (connectLive throws i o s)); cbn; done.
  - unfold handleModeChange, host_result.
    destruct (isVoiceSessionActive h) eqn:Hact.
    + unfold mbind, M_bind, mret, M_ret, bind, ret.
      destruct (closeLiveSession_two_ways throws s Hdev) as [[Hr Hf]|[[x Hr] Hf]];
        rewrite Hr; cbn; [done|]. rewrite Hf. auto.
    + cbn. by rewrite Hact.
  - specialize (Hev ev eq_refl). destruct ev; try discriminate; cbn [handle].
    + rewrite onopen_run. destruct (throws getUserMedia); cbn; eauto.
    + rewrite onaudioprocess_run. destruct (liveSession s) eqn:Hs; cbn; eauto.
      by rewrite Hs.
    + rewrite onmessage_run. cbv zeta.
      repeat (case_match; cbn; try done).
    + rewrite onmessage_begin_run.
      repeat (case_match; cbn; try done).
    + rewrite onmessage_resume_run. cbv zeta.
      repeat (case_match; cbn; try done).
    + cbn. done.
Qed.

(** X25: the host's flag and the service agree in one direction: from the
    application as loaded, through any presses of the voice button, mode
    changes and platform events, whenever [isVoiceSessionActive] is set the
    service holds a session handle (provided the releases of devices do not
    raise; a raising [session.close()] is allowed). *)
Theorem active_flag_implies_a_session (throws : Effect -> bool) (acts : list Action)
    (w : World) :
  (forall e, is_device_release e = true -> throws e = false) ->
  Forall (fun a => forall ev, a = platform ev -> is_host_call ev = false) acts ->
  holds_a_session w ->
  holds_a_session (run throws acts w).1.
Proof.
  intros Hdev Hacts. revert w.
  induction Hacts as [|a acts Ha _ IH]; intros w Hw; [done|].
  cbn [run].
  pose proof (step_holds_a_session throws a w Hdev Ha Hw) as Hstep.
  destruct (step throws a w) as [w1 t1]. cbn [fst] in Hstep.
  specialize (IH w1 Hstep).
  destruct (run throws acts w1) as [w2 t2]. done.
Qed.

Lemma active_flag_implies_a_session_witness :
  let acts := [press_voice_button 1%nat 2%nat;
               platform (ev_open 3%nat {| getTracks := [4%nat] |} 5%nat);
               platform (ev_audioprocess [(1 # 2)%Q])] in
  Forall (fun a => forall ev, a = platform ev -> is_host_call ev = false) acts /\
  holds_a_session initial_world /\
  host (run no_throw acts initial_world).1 =
    {| isVoiceSessionActive := true; isLoading := false |} /\
  is_Some (liveSession (service (run no_throw acts initial_world).1)).
Proof.
  intros acts.
  assert (Forall (fun a => forall ev, a = platform ev -> is_host_call ev = false) acts)
    as Hacts.
  { repeat constructor; intros ev Hev; inversion Hev; reflexivity. }
  assert (holds_a_session initial_world) as Hw by (intros H; discriminate H).
  pose proof (active_flag_implies_a_session no_throw acts initial_world
                (fun _ _ => eq_refl) Hacts Hw) as Hinv.
  split; [exact Hacts|]. split; [exact Hw|]. split; [reflexivity|].
  exact (Hinv eq_refl).
Defined.

Lemma step_keeps_loading (throws : Effect -> bool) (a : Action) (w : World) :
  isLoading (host w) = true ->
  cb_onOpen ∉ (step throws a w).2 ->
  isLoading (host (step throws a w).1) = true.
Proof.
  intros Hl. destruct w as [h s]. cbn [host service] in *.
  destruct a as [i o| |ev]; cbn [step host service fst snd].
  - by rewrite Hl.
  - intros _. unfold handleModeChange, host_result.
    destruct (isVoiceSessionActive h).
    + unfold mbind, M_bind, mret, M_ret, bind, ret.
      destruct (result (closeLiveSession throws s)); cbn; done.
    + cbn. done.
  - intros Hno. by rewrite host_after_loading.
Qed.

(** X26: once the host is loading, only [onOpen] ends it: through any
    presses of the voice button, mode changes and platform events during
    which [onOpen] is not called (a transport error or close, a refused
    microphone), [isLoading] stays set, and every press of the voice button
    meanwhile does nothing at all. *)
Theorem loading_ends_only_with_onOpen (throws : Effect -> bool) (acts : list Action)
    (w : World) :
  isLoading (host w) = true ->
  (cb_onOpen ∉ (run throws acts w).2) ->
  isLoading (host (run throws acts w).1) = true /\
  (forall input output, step throws (press_voice_button input output) w = (w, [])) /\
  (forall input output,
     step throws (press_voice_button input output) (run throws acts w).1 =
       ((run throws acts w).1, [])).
Proof.
  intros Hl Hno.
  assert (isLoading (host (run throws acts w).1) = true) as Hend.
  { revert w Hl Hno. induction acts as [|a acts IH]; intros w Hl Hno; [done|].
    cbn [run] in *.
    pose proof (step_keeps_loading throws a w Hl) as Hstep.
    destruct (step throws a w) as [w1 t1]. cbn [fst snd] in *.
    specialize (IH w1).
    destruct (run throws acts w1) as [w2 t2]. cbn [fst snd] in *.
    apply IH.
    - apply Hstep. intros Hin. apply Hno. apply elem_of_app. by left.
    - intros Hin. apply Hno. apply elem_of_app. by right. }
  split; [exact Hend|]. split.
  - intros input output. cbn. by rewrite Hl.
  - intros input output. cbn. by rewrite Hend.
Qed.

Lemma loading_ends_only_with_onOpen_witness :
  let pressed := (step no_throw (press_voice_button 1%nat 2%nat) initial_world).1 in
  let acts := [platform (ev_error "refused"); press_voice_button 3%nat 4%nat;
               platform ev_close; change_mode] in
  isLoading (host pressed) = true /\
  (cb_onOpen ∉ (run no_throw acts pressed).2) /\
  (run no_throw acts pressed).2 = [cb_onError "refused"; cb_onClose] /\
  isVoiceSessionActive (host (run no_throw acts pressed).1) = false /\
  isLoading (host (run no_throw acts pressed).1) = true.
Proof.
  intros pressed acts.
  assert (cb_onOpen ∉ (run no_throw acts pressed).2) as Hno.
  { vm_compute. intros H. repeat (apply elem_of_cons in H as [H|H]; [discriminate|]).
    by apply elem_of_nil in H. }
  destruct (loading_ends_only_with_onOpen no_throw acts pressed eq_refl Hno)
    as (Hl & _ & _).
  split; [reflexivity|]. split; [exact Hno|]. split; [reflexivity|].
  split; [reflexivity|exact Hl].
Defined.

End SystemFacts.
